(** * drizzle-builder: path utilities, file reader, pattern tree and
      collection renderer

    A shallow embedding of the JavaScript sources of drizzle-builder.
    Strings are sequences of 8-bit code units ([string]); a JavaScript
    object is the list of its own enumerable properties in enumeration
    order; mutation in place is modelled by explicit state passing. *)

From Stdlib Require Import Ascii String DecimalString.
From stdpp Require Import base option list gmap strings sorting.

Local Open Scope list_scope.

(** ** String helpers (the JavaScript [String.prototype] methods in use) *)
Module Str.

Definition of_char (c : ascii) : string := String c EmptyString.

(** [s.split(sep)] for a one-character separator: never the empty
    array, [''.split('.')] is [['']]. *)
Fixpoint split (sep : ascii) (s : string) : list string :=
  match s with
  | EmptyString => [EmptyString]
  | String c rest =>
      if Ascii.eqb c sep then EmptyString :: split sep rest
      else match split sep rest with
           | [] => [of_char c]
           | h :: t => String c h :: t
           end
  end.

(** [arr.join(sep)] *)
Fixpoint join (sep : string) (l : list string) : string :=
  match l with
  | [] => EmptyString
  | [x] => x
  | x :: rest => x +:+ sep +:+ join sep rest
  end.

Fixpoint prefix (p s : string) : bool :=
  match p, s with
  | EmptyString, _ => true
  | String a p', String b s' => Ascii.eqb a b && prefix p' s'
  | String _ _, EmptyString => false
  end.

(** [s.indexOf(p) !== -1] *)
Fixpoint contains (s p : string) : bool :=
  prefix p s ||
  match s with
  | EmptyString => false
  | String _ s' => contains s' p
  end.

Fixpoint map (f : ascii -> ascii) (s : string) : string :=
  match s with
  | EmptyString => EmptyString
  | String c s' => String (f c) (map f s')
  end.

Fixpoint dropWhile (f : ascii -> bool) (s : string) : string :=
  match s with
  | EmptyString => EmptyString
  | String c s' => if f c then dropWhile f s' else s
  end.

Fixpoint takeWhile (f : ascii -> bool) (s : string) : string :=
  match s with
  | EmptyString => EmptyString
  | String c s' => if f c then String c (takeWhile f s') else EmptyString
  end.

Fixpoint rev_onto (s acc : string) : string :=
  match s with
  | EmptyString => acc
  | String c s' => rev_onto s' (String c acc)
  end.

Definition rev (s : string) : string := rev_onto s EmptyString.

Fixpoint drop (n : nat) (s : string) : string :=
  match n, s with
  | S n', String _ s' => drop n' s'
  | _, _ => s
  end.

Definition nonempty (s : string) : bool :=
  match s with EmptyString => false | _ => true end.

Definition starts_with (c : ascii) (s : string) : bool :=
  match s with String a _ => Ascii.eqb a c | EmptyString => false end.

Definition ends_with (c : ascii) (s : string) : bool :=
  starts_with c (rev s).

Definition code (c : ascii) : nat := nat_of_ascii c.

Definition in_range (lo hi : nat) (c : ascii) : bool :=
  (lo <=? code c) && (code c <=? hi).

Definition is_digit (c : ascii) : bool := in_range 48 57 c.

(** The regular-expression class [\s], on the code units below 256:
    TAB, LF, VT, FF, CR, SPACE and NO-BREAK SPACE. *)
Definition is_space (c : ascii) : bool :=
  in_range 9 13 c || (code c =? 32) || (code c =? 160).

(** The regular-expression class [\w]: [A-Za-z0-9_]. *)
Definition is_word (c : ascii) : bool :=
  in_range 65 90 c || in_range 97 122 c || is_digit c || (code c =? 95).

(** [toLowerCase] and [toUpperCase] on one code unit below 256. *)
Definition lower (c : ascii) : ascii :=
  if in_range 65 90 c || (in_range 192 222 c && negb (code c =? 215))
  then ascii_of_nat (code c + 32) else c.

Definition upper_word (c : ascii) : ascii :=
  if in_range 97 122 c then ascii_of_nat (code c - 32) else c.

(** Decimal rendering of an array or string index. *)
Definition of_nat (n : nat) : string :=
  NilEmpty.string_of_uint (Nat.to_uint n).

End Str.

(** ** Node's [path] module, POSIX flavour ([path.sep] is [/])

    The functions of Node's library that the sources call, on the
    inputs they pass. [cwd] stands for [process.cwd()], an absolute
    path. *)
Module Path.

Definition sep : ascii := "/"%char.
Definition sep_s : string := "/".

Definition is_sep (c : ascii) : bool := Ascii.eqb c sep.

(** The non-empty components of a path. *)
Definition segments (p : string) : list string :=
  filter (fun s => Str.nonempty s = true) (Str.split sep p).

(** One step of [normalizeString]: the stack [acc] is kept reversed. *)
Definition norm_step (allowAboveRoot : bool) (acc : list string)
    (seg : string) : list string :=
  if String.eqb seg "" || String.eqb seg "." then acc
  else if String.eqb seg ".." then
    match acc with
    | top :: below =>
        if String.eqb top ".." then seg :: acc else below
    | [] => if allowAboveRoot then [seg] else []
    end
  else seg :: acc.

Definition normalizeArray (allowAboveRoot : bool) (parts : list string)
    : list string :=
  rev (fold_left (norm_step allowAboveRoot) parts []).

Definition isAbsolute (p : string) : bool := Str.starts_with sep p.

(** [path.normalize(p)] *)
Definition normalize (p : string) : string :=
  match p with
  | EmptyString => "."
  | _ =>
      let abs := isAbsolute p in
      let trailing := Str.ends_with sep p in
      let body := Str.join sep_s (normalizeArray (negb abs) (Str.split sep p)) in
      match body with
      | EmptyString => if abs then "/" else if trailing then "./" else "."
      | _ =>
          let body' := if trailing then body +:+ "/" else body in
          if abs then "/" +:+ body' else body'
      end
  end.

(** [path.join(...args)] *)
Definition join (args : list string) : string :=
  match filter (fun s => Str.nonempty s = true) args with
  | [] => "."
  | parts => normalize (Str.join sep_s parts)
  end.

(** [path.dirname(p)]: the scan from the end never looks at index 0. *)
Definition dirname (p : string) : string :=
  match p with
  | EmptyString => "."
  | String c0 rest =>
      let hasRoot := is_sep c0 in
      let r1 := Str.dropWhile is_sep (Str.rev rest) in
      let r2 := Str.dropWhile (fun c => negb (is_sep c)) r1 in
      match r2 with
      | EmptyString => if hasRoot then "/" else "."
      | String _ r3 =>
          match r3 with
          | EmptyString => if hasRoot then "//" else Str.of_char c0
          | _ => String c0 (Str.rev r3)
          end
      end
  end.

(** The last component of a path, trailing separators ignored. *)
Definition lastComponent (p : string) : string :=
  Str.rev (Str.takeWhile (fun c => negb (is_sep c))
             (Str.dropWhile is_sep (Str.rev p))).

(** [path.extname(p)]: from the last dot of the last component, unless
    the component has no dot, starts at that dot, or is [..]. *)
Definition extname (p : string) : string :=
  let comp := lastComponent p in
  let rc := Str.rev comp in
  let notdot := fun c => negb (Ascii.eqb c "."%char) in
  match Str.dropWhile notdot rc with
  | EmptyString => ""
  | String _ before =>
      if negb (Str.nonempty before) || String.eqb comp ".." then ""
      else String "."%char (Str.rev (Str.takeWhile notdot rc))
  end.

(** [path.basename(p, ext)] for an [ext] that is empty or a suffix of
    the last component, which is how the sources call it. *)
Definition basename (p ext : string) : string :=
  let comp := lastComponent p in
  if negb (Str.nonempty ext) then comp
  else if String.eqb ext p then ""
  else if String.eqb ext comp then comp
  else if Str.prefix (Str.rev ext) (Str.rev comp)
       then Str.rev (Str.drop (String.length ext) (Str.rev comp))
       else comp.

(** [path.resolve(p)] against the working directory. *)
Definition resolve (cwd p : string) : string :=
  let full := if isAbsolute p then p else cwd +:+ sep_s +:+ p in
  sep_s +:+ Str.join sep_s (normalizeArray false (Str.split sep full)).

(** What [path.relative] emits once the common leading components are
    skipped: one [..] per remaining component of [from], then the rest
    of [to]. *)
Fixpoint rel_parts (fp tp : list string) : list string :=
  match fp, tp with
  | f :: fp', t :: tp' =>
      if String.eqb f t then rel_parts fp' tp'
      else repeat ".." (length fp) ++ tp
  | _, _ => repeat ".." (length fp) ++ tp
  end.

(** [path.relative(from, to)] *)
Definition relative (cwd from to : string) : string :=
  if String.eqb from to then ""
  else
    let f := resolve cwd from in
    let t := resolve cwd to in
    if String.eqb f t then ""
    else Str.join sep_s (rel_parts (segments f) (segments t)).

End Path.

(** ** [src/utils/shared.js] *)
Module Shared.

Definition idKeys (idString : string) : list string :=
  Str.split "."%char idString.

Definition keyname (str : string) : string :=
  Path.basename str (Path.extname str).

Definition relativePathArray (cwd filePath fromPath : string)
    : list string :=
  if negb (Str.contains filePath fromPath) || String.eqb filePath fromPath
  then []
  else
    let keys := Path.relative cwd fromPath (Path.dirname filePath) in
    if Str.nonempty keys then Str.split Path.sep keys else [].

(** [subPath.pop()] on an empty array is [undefined], which [+] renders
    as the text [undefined]. *)
Definition pop_text (l : list string) : string :=
  match l with
  | [] => "undefined"
  | x :: _ => List.last l x
  end.

Definition resourcePath (resourceId dest : string) : string :=
  let subPath := idKeys resourceId in
  let subPath := if 1 <? length subPath then tail subPath else subPath in
  let filename := pop_text subPath +:+ ".html" in
  Path.normalize (Path.join
    [dest; Str.join Path.sep_s (removelast subPath); filename]).

(** [.replace(/\w\S*/g, word => ...)]: [inword] holds while the scan is
    inside a match. *)
Fixpoint capitalize (inword : bool) (s : string) : string :=
  match s with
  | EmptyString => EmptyString
  | String c s' =>
      if inword then String c (capitalize (negb (Str.is_space c)) s')
      else if Str.is_word c then String (Str.upper_word c) (capitalize true s')
      else String c (capitalize false s')
  end.

Definition dash_to_space (c : ascii) : ascii :=
  if Ascii.eqb c "-"%char || Ascii.eqb c "_"%char then " "%char else c.

Definition titleCase (str : string) : string :=
  capitalize false (Str.map dash_to_space (Str.map Str.lower str)).

End Shared.

(** ** JavaScript values

    Numbers are only ever tested for truthiness here, so an integer
    stands for them. An object is the list of its own enumerable
    properties in enumeration order; an array is the object whose keys
    are its indices. *)
#[warnings="-register-all"]
Inductive JsVal : Type :=
  | VUndef
  | VNull
  | VBool (b : bool)
  | VNum (z : Z)
  | VStr (s : string)
  | VObj (props : list (string * JsVal)).

Definition Props : Type := list (string * JsVal).

Module Js.

Definition truthy (v : JsVal) : bool :=
  match v with
  | VUndef | VNull => false
  | VBool b => b
  | VNum z => negb (Z.eqb z 0)
  | VStr s => Str.nonempty s
  | VObj _ => true
  end.

Fixpoint getOwn {A} (k : string) (props : list (string * A)) : option A :=
  match props with
  | [] => None
  | (k', x) :: rest => if String.eqb k' k then Some x else getOwn k rest
  end.

(** The indexed properties of a string primitive. *)
Fixpoint str_props (i : nat) (s : string) : Props :=
  match s with
  | EmptyString => []
  | String c s' => (Str.of_nat i, VStr (Str.of_char c)) :: str_props (S i) s'
  end.

(** The properties [for ... in] enumerates: none for [undefined],
    [null], booleans and numbers. *)
Definition entries (v : JsVal) : Props :=
  match v with
  | VObj props => props
  | VStr s => str_props 0 s
  | _ => []
  end.

Definition forin_keys (v : JsVal) : list string := (entries v).*1.

(** [v[k]], where an absent property reads as [undefined]. *)
Definition getProp (v : JsVal) (k : string) : JsVal :=
  default VUndef (getOwn k (entries v)).

(** [obj[k] = x]: an existing property keeps its place, a new one
    goes last. *)
Fixpoint setProp {A} (k : string) (x : A) (props : list (string * A))
    : list (string * A) :=
  match props with
  | [] => [(k, x)]
  | (k', y) :: rest =>
      if String.eqb k' k then (k', x) :: rest
      else (k', y) :: setProp k x rest
  end.

(** Change the value of an existing property. *)
Fixpoint alterProp (k : string) (f : JsVal -> JsVal) (props : Props)
    : Props :=
  match props with
  | [] => []
  | (k', y) :: rest =>
      if String.eqb k' k then (k', f y) :: rest
      else (k', y) :: alterProp k f rest
  end.

(** [Object.assign(target, source)] on property lists. *)
Definition assign {A} (target source : list (string * A))
    : list (string * A) :=
  fold_left (fun acc kv => setProp kv.1 kv.2 acc) source target.

Fixpoint getPath (path : list string) (v : JsVal) : JsVal :=
  match path with
  | [] => v
  | k :: rest => getPath rest (getProp v k)
  end.

(** Mutation in place of the object reached by [path]. *)
Fixpoint updPath (path : list string) (f : JsVal -> JsVal) (v : JsVal)
    : JsVal :=
  match path with
  | [] => f v
  | k :: rest =>
      match v with
      | VObj props => VObj (alterProp k (updPath rest f) props)
      | _ => v
      end
  end.

End Js.

(** Results of code that can throw. *)
Inductive Res (A : Type) : Type :=
  | Ok (a : A)
  | Throw (e : string).
Arguments Ok {A} a.
Arguments Throw {A} e.

(** ** The utilities file with [deepObj], [keyname], [matchParser] and
    [readFiles] *)
Module Utils.

Definition basename (filepath : string) : string :=
  Path.basename filepath (Path.extname filepath).

(** The class of [/^[0-9|\.\-]+/]: digits, [|], [.] and [-]. *)
Definition leading_class (c : ascii) : bool :=
  Str.is_digit c || Ascii.eqb c "|"%char || Ascii.eqb c "."%char
  || Ascii.eqb c "-"%char.

Definition removeLeadingNumbers (str : string) : string :=
  Str.dropWhile leading_class str.

Definition space_to_dash (c : ascii) : ascii :=
  if Str.is_space c then "-"%char else c.

Definition keyname (str : string) (stripNumbers : bool) : string :=
  let name := Str.map space_to_dash (basename str) in
  if stripNumbers then removeLeadingNumbers name else name.

Definition relativePathArray (cwd filePath fromPath : string)
    : list string :=
  let keys := Path.relative cwd fromPath (Path.dirname filePath) in
  if Str.nonempty keys then Str.split Path.sep keys else [].

(** [dirname(filepath)]: the directory of the file, normalized. *)
Definition dirname (filepath : string) : string :=
  Path.normalize (Path.dirname filepath).

(** [dirname(filepath).split(path.sep).pop()]: [split] never yields
    the empty array, so [pop] finds an element. *)
Definition localDirname (filepath : string) : string :=
  List.last (Str.split Path.sep (dirname filepath)) EmptyString.

(** [dirname(filepath).split(path.sep).slice(-2, -1)[0]]: the element
    before the last one, [undefined] when there is none. *)
Definition parentDirname (filepath : string) : option string :=
  match rev (Str.split Path.sep (dirname filepath)) with
  | _ :: parent :: _ => Some parent
  | _ => None
  end.

(** The callback of the [reduce] in [commonRoot]: the parts of [prev]
    that occur among the parts of [curr], joined again. *)
Definition commonBits (prev curr : string) : string :=
  let prev := Str.split Path.sep prev in
  let curr := Str.split Path.sep curr in
  Str.join Path.sep_s
    (filter (fun prevBit => existsb (String.eqb prevBit) curr = true) prev).

(** [commonRoot(files)]: [reduce] without an initial value throws on
    the empty array and returns the only element of a singleton as it
    is; [split] on a value that is not a string throws. *)
Definition commonRoot (files : list Props) : Res JsVal :=
  let paths := map (fun file => Js.getProp (VObj file) "path") files in
  match paths with
  | [] => Throw "TypeError"
  | first :: rest =>
      fold_left
        (fun acc curr =>
           match acc, curr with
           | Ok (VStr prev), VStr curr => Ok (VStr (commonBits prev curr))
           | Ok _, _ => Throw "TypeError"
           | Throw e, _ => Throw e
           end)
        rest (Ok first)
  end.

(** [deepObj(pathKeys, obj)] returns the value reached and the
    mutated [obj]. The module is strict code: assigning a property on
    a primitive throws, as does reading one from [undefined] or
    [null]. *)
Fixpoint deepObj (pathKeys : list string) (obj : JsVal)
    : Res (JsVal * JsVal) :=
  match pathKeys with
  | [] => Ok (obj, obj)
  | curr :: rest =>
      match obj with
      | VObj props =>
          let old := Js.getProp obj curr in
          let child := if Js.truthy old then old else VObj [] in
          match deepObj rest child with
          | Ok (ref, child') => Ok (ref, VObj (Js.setProp curr child' props))
          | Throw e => Throw e
          end
      | _ => Throw "TypeError"
      end
  end.

(** What a content parser returns: a string or an object. *)
Inductive Parsed : Type :=
  | PText (s : string)
  | PData (props : Props).

Definition ParseFn : Type := string -> string -> Parsed.

Record Rule : Type := {
  pattern : option string;
  parseFn : ParseFn
}.

Definition has_pattern (r : Rule) : bool :=
  match pattern r with
  | Some p => Str.nonempty p
  | None => false
  end.

Definition defaultParseFn : ParseFn :=
  fun contents filepath => PData [("contents", VStr contents)].

Section Reader.

(** [new RegExp(source).test(text)], for sources that compile. *)
Variable regex_test : string -> string -> bool.

Definition rule_matches (filepath : string) (r : Rule) : bool :=
  match pattern r with
  | Some p => Str.nonempty p && regex_test p filepath
  | None => false
  end.

(** The [for ... in] loop of [matchParser]. *)
Fixpoint firstMatch (filepath : string) (parsers : list (string * Rule))
    : option ParseFn :=
  match parsers with
  | [] => None
  | (_, r) :: rest =>
      if rule_matches filepath r then Some (parseFn r)
      else firstMatch filepath rest
  end.

Definition matchParser (filepath : string)
    (parsers : list (string * Rule)) : ParseFn :=
  match firstMatch filepath parsers with
  | Some f => f
  | None =>
      match Js.getOwn "default" parsers with
      | Some d => parseFn d
      | None => defaultParseFn
      end
  end.

(** [globby(glob, opts)] and the promisified [fs.readFile], whose
    failure rejects the whole batch. *)
Variable globby : list string -> Props -> list string.
Variable readFile : string -> string -> option string.

Definition getFiles (glob : list string) (globOpts : Props)
    : list string :=
  globby glob (Js.assign [("nodir", VBool true)] globOpts).

(** [getDirs(glob, options)]: a glob given as one string stands for
    the array that holds it. *)
Definition getDirs (glob : string + list string) (options : Props)
    : list string :=
  let opts := Js.assign [("nodir", VBool false)] options in
  let dirGlob := match glob with inl g => [g] | inr entries => entries end in
  getFiles (map (fun dirEntry => Path.dirname dirEntry +:+ "/*/") dirGlob)
    opts.

Definition readOne (parsers : list (string * Rule)) (encoding : string)
    (filepath : string) : option Props :=
  fileData ← readFile filepath encoding;
  let parser := matchParser filepath parsers in
  let fileData :=
    match parser fileData filepath with
    | PText s => [("contents", VStr s)]
    | PData props => props
    end in
  Some (Js.assign fileData [("path", VStr filepath)]).

Definition readFiles (glob : list string)
    (parsers : list (string * Rule)) (encoding : string)
    (globOpts : Props) : option (list Props) :=
  mapM (readOne parsers encoding) (getFiles glob globOpts).



End Reader.

End Utils.

(** ** The collection renderer ([renderCollection], [walkCollections]) *)
Module Render.

Record Options : Type := {
  layouts_collection : string;
  other_options : Props
}.

(** [drizzleData]: the tree being rendered, the template tree and the
    build options. *)
Record DrizzleData : Type := {
  patterns : JsVal;
  templates : JsVal;
  options : Options
}.

(** How a call ends: normally, by an exception that leaves the
    store as mutated so far, or with the call stack exhausted. *)
Inductive Outcome : Type :=
  | Done (d : DrizzleData)
  | Threw (e : string) (d : DrizzleData)
  | OutOfFuel.

Definition with_templates (d : DrizzleData) (t : JsVal) : DrizzleData :=
  {| patterns := patterns d; templates := t; options := options d |}.

Definition with_patterns (d : DrizzleData) (p : JsVal) : DrizzleData :=
  {| patterns := p; templates := templates d; options := options d |}.

(** [collection.contents = s] on the collection object. *)
Definition set_contents (s : string) (coll : JsVal) : JsVal :=
  match coll with
  | VObj cp => VObj (Js.setProp "contents" (VStr s) cp)
  | _ => coll
  end.

Definition is_object (v : JsVal) : bool :=
  match v with VObj _ => true | _ => false end.

(** The body of [for (const k in obj)]: the keys are those of the
    object when the loop starts. *)
Fixpoint forin (body : string -> DrizzleData -> Outcome)
    (keys : list string) (d : DrizzleData) : Outcome :=
  match keys with
  | [] => Done d
  | k :: ks =>
      match body k d with
      | Done d' => forin body ks d'
      | o => o
      end
  end.

Section Walk.

(** [applyTemplate] of [utils/render] and [resourceContext] of
    [utils/context], which the renderer imports. *)
Variable applyTemplate : JsVal -> JsVal -> Options -> Res string.
Variable resourceContext : JsVal -> DrizzleData -> JsVal.

(** [patterns], the first argument of the source, is the object found
    at [path] in the tree of the store [d]; the assignment to
    [patterns.collection.contents] changes that object in place. *)
Definition renderCollection (path : list string) (d : DrizzleData)
    (collectionKey : string) : Outcome :=
  let layoutKey := layouts_collection (options d) in
  match Utils.deepObj (Str.split "."%char layoutKey) (templates d) with
  | Throw e => Threw e d
  | Ok (layoutObj, templates') =>
      let d := with_templates d templates' in
      let coll := Js.getProp (Js.getPath path (patterns d)) "collection" in
      match applyTemplate (Js.getProp layoutObj "contents")
                          (resourceContext coll d) (options d) with
      | Throw e => Threw e d
      | Ok s =>
          if is_object coll then
            Done (with_patterns d
                    (Js.updPath (path ++ ["collection"]) (set_contents s)
                       (patterns d)))
          else Threw "TypeError" d
      end
  end.

(** One level of fuel is one frame of the call stack. The source
    returns [drizzleData.patterns], here the [patterns] of the store
    the walk ends with. *)
Fixpoint walkCollections (fuel : nat) (path : list string)
    (d : DrizzleData) (currentKey : string) : Outcome :=
  match fuel with
  | O => OutOfFuel
  | S fuel' =>
      forin
        (fun patternKey d =>
           if String.eqb patternKey "collection"
           then renderCollection path d currentKey
           else walkCollections fuel' (path ++ [patternKey]) d patternKey)
        (Js.forin_keys (Js.getPath path (patterns d))) d
  end.

Definition renderCollections (fuel : nat) (d : DrizzleData) : Outcome :=
  walkCollections fuel [] d "patterns".

End Walk.

End Render.

(** ** Natural (alphanumeric) order of keys

    The order in which a collection lists the patterns its explicit
    order does not name. Runs of digits compare as numbers, other
    characters by code; keys that tie compare as plain strings, so the
    order is total on keys. *)
Module Natural.

(** Modelled from the spec: the pieces a key is compared by in the
    natural order, a run of digits read as a number or a single other
    character. *)
Inductive Chunk : Type :=
  | CNum (n : N)
  | CChr (c : ascii).

(** Modelled from the spec: the value of a decimal digit of a key. *)
Definition digit_val (c : ascii) : N := N.of_nat (Str.code c - 48).

(** Modelled from the spec: the run of digits read so far, as a chunk. *)
Definition flush (acc : option N) : list Chunk :=
  match acc with
  | Some n => [CNum n]
  | None => []
  end.

(** Modelled from the spec: a key cut into its chunks. *)
Fixpoint chunks (acc : option N) (s : string) : list Chunk :=
  match s with
  | EmptyString => flush acc
  | String c s' =>
      if Str.is_digit c
      then chunks (Some (10 * default 0%N acc + digit_val c)%N) s'
      else flush acc ++ CChr c :: chunks None s'
  end.

(** Modelled from the spec: numbers compare as numbers and sort before
    other characters, which compare by code. *)
Definition chunk_cmp (a b : Chunk) : comparison :=
  match a, b with
  | CNum x, CNum y => N.compare x y
  | CNum _, CChr _ => Lt
  | CChr _, CNum _ => Gt
  | CChr x, CChr y => Nat.compare (Str.code x) (Str.code y)
  end.

(** Modelled from the spec: chunk lists compare lexicographically. *)
Fixpoint list_cmp (l1 l2 : list Chunk) : comparison :=
  match l1, l2 with
  | [], [] => Eq
  | [], _ :: _ => Lt
  | _ :: _, [] => Gt
  | a :: l1', b :: l2' =>
      match chunk_cmp a b with
      | Eq => list_cmp l1' l2'
      | c => c
      end
  end.

(** Modelled from the spec: the natural (alphanumeric) comparison of two
    keys; keys that tie compare as plain strings. *)
Definition cmp (a b : string) : comparison :=
  match list_cmp (chunks None a) (chunks None b) with
  | Eq => String.compare a b
  | c => c
  end.

(** Modelled from the spec: the natural order of keys, as a test. *)
Definition leb (a b : string) : bool :=
  match cmp a b with Gt => false | _ => true end.

(** Modelled from the spec: the natural order of keys. *)
Definition le (a b : string) : Prop := leb a b = true.

(** Modelled from the spec: the natural order is decidable. *)
#[global] Instance le_dec a b : Decision (le a b).
Proof. unfold le. apply _. Defined.

End Natural.

(** ** The pattern tree builder

    [parse/patterns], the module that folds the file records into the
    tree of namespaces, collections and patterns, is known by its tests
    and its specification only: every definition of this module and of
    [Natural] follows the specification. *)
Module Patterns.

(** Modelled from the spec: a file record as the reader hands it over,
    its path, its parsed front matter and its body. *)
Record FileRecord : Type := {
  r_path : string;
  r_data : Props;
  r_contents : string
}.

(** Modelled from the spec: a Pattern leaf (section 3). *)
Record Pattern : Type := {
  id : string;
  name : string;
  data : Props;
  contents : string;
  path : string;
  resourceType : string
}.

(** Modelled from the spec: a Collection (section 3), with the front
    matter merged onto it in [c_data]; [c_contents] is absent until the
    render pass. *)
Record Collection : Type := {
  c_name : string;
  c_id : string;
  items : gmap string Pattern;
  patterns : list Pattern;
  c_data : Props;
  c_contents : option string;
  c_resourceType : string
}.

(** Modelled from the spec: a Namespace, with its collection under the
    key [collection], if any, and one entry per sub-directory. *)
#[warnings="-register-all"]
Inductive Tree : Type :=
  | Node (collection : option Collection) (children : gmap string Tree).

(** Modelled from the spec: the tree before any record is placed. *)
Definition empty_tree : Tree := Node None ∅.

(** Modelled from the spec: the build options the builder reads, the
    working directory, the source root and the root key of the IDs. *)
Record Config : Type := {
  cwd : string;
  basedir : string;
  rootKey : string
}.

(** Modelled from the spec: the ReservedPropertyError (section 7). *)
Record BuildError : Type := {
  prop : string;
  source : string;
  message : string
}.

(** Modelled from the spec: the reserved property names. *)
Definition reserved : list string := ["id"; "items"; "patterns"].

(** Modelled from the spec: the data defines the property. *)
Definition defines (k : string) (d : Props) : bool :=
  match Js.getOwn k d with Some _ => true | None => false end.

(** Modelled from the spec: the error for a reserved property, whose
    message names the property and the file or collection. *)
Definition reservedError (p src : string) : BuildError :=
  {| prop := p; source := src;
     message := "Drizzle reserved property " +:+ p +:+ " defined in " +:+ src |}.

(** Modelled from the spec: membership in the reserved names. *)
Definition is_reserved (k : string) : bool :=
  existsb (String.eqb k) reserved.

(** Modelled from the spec: the data without the reserved keys. *)
Definition strip_reserved (d : Props) : Props :=
  filter (fun kv => is_reserved kv.1 = false) d.

Section Builder.

Variable cfg : Config.

(** The front matter of each collection directory, by its segments. *)
Variable colldata : list string -> Props.

(** Modelled from the spec: the directory segments of a record, relative
    to the source root, by [relativePathArray]. *)
Definition segsOf (r : FileRecord) : list string :=
  Shared.relativePathArray (cwd cfg) (r_path r) (basedir cfg).

(** Modelled from the spec: the key of a record, [keyname] of its path. *)
Definition keyOf (r : FileRecord) : string :=
  Utils.keyname (r_path r) true.

(** Modelled from the spec: the dot-join of a key path. *)
Definition dotted (keys : list string) : string := Str.join "." keys.

(** Modelled from the spec: how an error names a collection. *)
Definition collLabel (segs : list string) : string :=
  "collection " +:+ dotted (rootKey cfg :: segs).

(** Modelled from the spec: step 5 of section 4.3, the reserved-property
    check of one record. *)
Definition check (r : FileRecord) : option BuildError :=
  if defines "id" (r_data r) then Some (reservedError "id" (r_path r))
  else
    let cd := colldata (segsOf r) in
    if defines "items" cd
    then Some (reservedError "items" (collLabel (segsOf r)))
    else if defines "patterns" cd
    then Some (reservedError "patterns" (collLabel (segsOf r)))
    else None.

(** Modelled from the spec: the display name, overridable by the data. *)
Definition nameOr (d : Props) (dflt : string) : string :=
  match Js.getOwn "name" d with
  | Some (VStr n) => n
  | _ => dflt
  end.

(** Modelled from the spec: steps 3 and 4 of section 4.3, the pattern of
    a record. *)
Definition mkPattern (r : FileRecord) : Pattern :=
  {| id := dotted (rootKey cfg :: segsOf r ++ [keyOf r]);
     name := nameOr (r_data r) (Shared.titleCase (keyOf r));
     data := strip_reserved (r_data r);
     contents := r_contents r;
     path := r_path r;
     resourceType := "pattern" |}.

(** Modelled from the spec: step 2 of section 4.3, the stub of the
    collection of a directory. *)
Definition stub (segs : list string) : Collection :=
  {| c_name := Shared.titleCase (List.last segs (rootKey cfg));
     c_id := dotted (rootKey cfg :: segs ++ ["collection"]);
     items := ∅;
     patterns := [];
     c_data := [];
     c_contents := None;
     c_resourceType := "collection" |}.

(** Modelled from the spec: the collection of a directory once its front
    matter is merged and a record is added under its key; a later
    record with the same key replaces the earlier one. *)
Definition putItem (segs : list string) (key : string) (p : Pattern)
    (c : option Collection) : Collection :=
  let base := default (stub segs) c in
  let cd := colldata segs in
  {| c_name := nameOr cd (c_name base);
     c_id := c_id base;
     items := <[key := p]> (items base);
     patterns := patterns base;
     c_data := cd;
     c_contents := c_contents base;
     c_resourceType := c_resourceType base |}.

(** Modelled from the spec: step 1 of section 4.3, the walk down the
    segments that creates, and never overwrites, what is missing. *)
Fixpoint atDir (segs : list string)
    (f : option Collection -> Collection) (t : Tree) : Tree :=
  match segs, t with
  | [], Node c ch => Node (Some (f c)) ch
  | s :: rest, Node c ch =>
      Node c (<[s := atDir rest f (default empty_tree (ch !! s))]> ch)
  end.

(** Modelled from the spec: one record placed in the tree. *)
Definition insertRecord (t : Tree) (r : FileRecord) : Tree :=
  atDir (segsOf r) (putItem (segsOf r) (keyOf r) (mkPattern r)) t.

(** Modelled from the spec: one record checked, then placed. *)
Definition place (t : Tree) (r : FileRecord) : BuildError + Tree :=
  match check r with
  | Some e => inl e
  | None => inr (insertRecord t r)
  end.

(** Modelled from the spec: the records placed in sequence order; the
    first failing check ends the build. *)
Fixpoint placeAll (t : Tree) (records : list FileRecord)
    : BuildError + Tree :=
  match records with
  | [] => inr t
  | r :: rest =>
      match place t r with
      | inl e => inl e
      | inr t' => placeAll t' rest
      end
  end.

(** Modelled from the spec: the item is flagged hidden in its own data. *)
Definition hidden (p : Pattern) : bool :=
  match Js.getOwn "hidden" (data p) with
  | Some v => Js.truthy v
  | None => false
  end.

(** Modelled from the spec: the explicit order a collection declares, an
    array of keys. *)
Definition orderOf (cd : Props) : list string :=
  match Js.getOwn "order" cd with
  | Some (VObj elems) =>
      omap (fun kv => match kv.2 with VStr k => Some k | _ => None end) elems
  | _ => []
  end.

(** Modelled from the spec: the keys the explicit order names, in that
    order, then the other keys in natural order. *)
Definition orderedKeys (order : list string)
    (its : gmap string Pattern) : list string :=
  filter (fun k => is_Some (its !! k)) order
  ++ merge_sort Natural.le
       (filter (fun k => k ∉ order) (map_to_list its).*1).

(** Modelled from the spec: [patterns], the items in that order without
    the hidden ones. *)
Definition visible (order : list string) (its : gmap string Pattern)
    : list Pattern :=
  filter (fun p => hidden p = false)
    (omap (fun k => its !! k) (orderedKeys order its)).

(** Modelled from the spec: [patterns] computed from [items], once all
    records are placed. *)
Definition finalizeCollection (c : Collection) : Collection :=
  {| c_name := c_name c;
     c_id := c_id c;
     items := items c;
     patterns := visible (orderOf (c_data c)) (items c);
     c_data := c_data c;
     c_contents := c_contents c;
     c_resourceType := c_resourceType c |}.

(** Modelled from the spec: the same for every collection of the tree. *)
Fixpoint finalize (t : Tree) : Tree :=
  match t with
  | Node c ch => Node (finalizeCollection <$> c) (finalize <$> ch)
  end.

(** Modelled from the spec: the Pattern Tree Builder. *)
Definition build (records : list FileRecord) : BuildError + Tree :=
  match placeAll empty_tree records with
  | inl e => inl e
  | inr t => inr (finalize t)
  end.

(** Modelled from the spec: the collection of a directory of the tree. *)
Fixpoint collectionAt (segs : list string) (t : Tree)
    : option Collection :=
  match segs, t with
  | [], Node c _ => c
  | s :: rest, Node _ ch => ch !! s ≫= collectionAt rest
  end.

End Builder.

End Patterns.

(** ** Definitions the properties are stated with *)

Fixpoint mem_char (c : ascii) (s : string) : bool :=
  match s with
  | EmptyString => false
  | String a s' => Ascii.eqb a c || mem_char c s'
  end.

Definition plain_part (x : string) : Prop :=
  mem_char Path.sep x = false ∧ Str.nonempty x = true.

(** A directory or file name: no separator, not empty, not [.] or [..]. *)
Definition name_part (x : string) : Prop :=
  plain_part x ∧ String.eqb x "." = false ∧ String.eqb x ".." = false.

Definition abs_path (segs : list string) : string :=
  Path.sep_s +:+ Str.join Path.sep_s segs.

(** The leading run as the specification words it: digits, [.] and [-]. *)
Definition spec_leading_class (c : ascii) : bool :=
  Str.is_digit c || Ascii.eqb c "."%char || Ascii.eqb c "-"%char.

(** [keyname] as the specification words it: directory and extension
    stripped, whitespace replaced by [-], and with [stripNumbers] the
    leading run of digits, [.] and [-] removed. *)
Definition keyname_spec (str : string) (stripNumbers : bool) : string :=
  let name := Str.map Utils.space_to_dash (Utils.basename str) in
  if stripNumbers then Str.dropWhile spec_leading_class name else name.

Section ReaderSpec.

Variable regex_test : string -> string -> bool.

Definition no_match (filepath : string)
    (parsers : list (string * Utils.Rule)) : Prop :=
  Forall (fun kr => Utils.rule_matches regex_test filepath kr.2 = false)
    parsers.

(** The record [readFiles] builds for one file. *)
Definition record_of (parsers : list (string * Utils.Rule))
    (filepath text : string) (aFile : Props) : Prop :=
  match Utils.matchParser regex_test filepath parsers text filepath with
  | Utils.PText s => aFile = [("contents", VStr s); ("path", VStr filepath)]
  | Utils.PData props =>
      aFile = Js.setProp "path" (VStr filepath) props
      ∧ ∀ k, k ≠ "path" → Js.getOwn k aFile = Js.getOwn k props
  end.

End ReaderSpec.

(** A collection object without its [contents]. *)
Definition drop_contents (v : JsVal) : JsVal :=
  match v with
  | VObj cp => VObj (filter (fun kv => kv.1 ≠ "contents") cp)
  | _ => v
  end.

(** A tree with the [contents] of every object held under a key
    [collection] removed, as far as the walk descends: two trees with
    the same image differ at most in those fields. *)
Fixpoint erase (v : JsVal) : JsVal :=
  match v with
  | VObj props =>
      VObj (map (fun '(k, x) =>
                   (k, if String.eqb k "collection" then drop_contents x
                       else erase x)) props)
  | _ => v
  end.

Definition erase_entry (k : string) (x : JsVal) : JsVal :=
  if String.eqb k "collection" then drop_contents x else erase x.

(** The layout path is already in the template tree. *)
Fixpoint resolves (pathKeys : list string) (obj : JsVal) : bool :=
  match pathKeys with
  | [] => true
  | k :: rest =>
      match obj with
      | VObj props =>
          match Js.getOwn k props with
          | Some child => Js.truthy child && resolves rest child
          | None => false
          end
      | _ => false
      end
  end.

Definition layoutKeys (d : Render.DrizzleData) : list string :=
  Str.split "."%char (Render.layouts_collection (Render.options d)).

(** What the store may differ in after a call. *)
Definition keeps (d : Render.DrizzleData) (o : Render.Outcome) : Prop :=
  match o with
  | Render.Done d' | Render.Threw _ d' =>
      Render.options d' = Render.options d
      ∧ erase (Render.patterns d') = erase (Render.patterns d)
      ∧ (resolves (layoutKeys d) (Render.templates d) = true →
         Render.templates d' = Render.templates d)
  | Render.OutOfFuel => True
  end.



(** [walkable n v]: a walk of [v] needs at most [n] stack frames. What
    lies under a key [collection] is not walked; a non-empty string
    is never walkable. *)
Fixpoint walkable (n : nat) (v : JsVal) : bool :=
  match n with
  | O => false
  | S n' =>
      match v with
      | VObj props =>
          forallb (fun kv => String.eqb kv.1 "collection" || walkable n' kv.2)
            props
      | VStr s => negb (Str.nonempty s)
      | _ => true
      end
  end.

(** No non-empty string outside the objects held under [collection]. *)
Fixpoint text_free (v : JsVal) : bool :=
  match v with
  | VObj props =>
      forallb (fun '(k, x) => String.eqb k "collection" || text_free x) props
  | VStr s => negb (Str.nonempty s)
  | _ => true
  end.

(** The depth of the part of a tree the walk descends into. *)
Fixpoint depth (v : JsVal) : nat :=
  match v with
  | VObj props =>
      S (list_max
           (map (fun '(k, x) =>
                   if String.eqb k "collection" then 0 else depth x) props))
  | _ => 1
  end.

Section BuilderSpec.

Variable cfg : Patterns.Config.
Variable colldata : list string -> Props.

Definition dirKey (r : Patterns.FileRecord) : list string * string :=
  (Patterns.segsOf cfg r, Patterns.keyOf r).

Definition violates (r : Patterns.FileRecord) : Prop :=
  Patterns.defines "id" (Patterns.r_data r) = true
  ∨ Patterns.defines "items" (colldata (Patterns.segsOf cfg r)) = true
  ∨ Patterns.defines "patterns" (colldata (Patterns.segsOf cfg r)) = true.

#[global] Instance violates_dec r : Decision (violates r).
Proof. unfold violates. apply _. Defined.

(** What the error of a record says. *)
Definition names_offence (r : Patterns.FileRecord) (e : Patterns.BuildError)
    : Prop :=
  (Patterns.prop e = "id" ∧ Patterns.source e = Patterns.r_path r
   ∧ Patterns.defines "id" (Patterns.r_data r) = true)
  ∨ ((Patterns.prop e = "items" ∨ Patterns.prop e = "patterns")
     ∧ Patterns.source e = Patterns.collLabel cfg (Patterns.segsOf cfg r)
     ∧ Patterns.defines (Patterns.prop e)
         (colldata (Patterns.segsOf cfg r)) = true).


End BuilderSpec.


Definition itemPath (segs : list string) (k : string)
    (result : Patterns.BuildError + Patterns.Tree) : option string :=
  match result with
  | inl _ => None
  | inr t =>
      c ← Patterns.collectionAt segs t;
      Patterns.path <$> Patterns.items c !! k
  end.

(** The path with the given components, from the root or relative. *)
Definition path_of (absolute : bool) (segs : list string) : string :=
  if absolute then abs_path segs else Str.join Path.sep_s segs.

(** The parts of [p] that occur among the parts of every path of
    [others]. *)
Definition sharedBits (p : string) (others : list string) : list string :=
  filter
    (fun bit =>
       forallb (fun q => existsb (String.eqb bit) (Str.split Path.sep q))
         others = true)
    (Str.split Path.sep p).

(** A path that names a file [name.html], in a directory or not. *)
Definition html_file (p : string) : Prop :=
  ∃ dir name,
    p = dir +:+ name +:+ ".html"
    ∧ (dir = EmptyString ∨ Str.ends_with Path.sep dir = true)
    ∧ mem_char Path.sep name = false.

Definition lower_alnum (c : ascii) : bool :=
  Str.in_range 97 122 c || Str.is_digit c.

Fixpoint all_chars (f : ascii → bool) (s : string) : bool :=
  match s with
  | EmptyString => true
  | String c s' => f c && all_chars f s'
  end.

(** A word of lower-case letters and digits. *)
Definition plain_word (w : string) : Prop :=
  Str.nonempty w = true ∧ all_chars lower_alnum w = true.

(** The word with its first letter in upper case. *)
Definition capitalized (w : string) : string :=
  match w with
  | EmptyString => EmptyString
  | String c w' => String (Str.upper_word c) w'
  end.




(** ** Example inputs *)

Definition doc_target : list string := ["baz"; "c"; "d"].

Definition buttons : JsVal :=
  VObj [("name", VStr "Button");
        ("items", VObj [("base", VObj [("id", VStr "patterns.button.base");
                                       ("contents", VStr "<button>")])]);
        ("patterns", VObj [("0", VObj [("id", VStr "patterns.button.base");
                                       ("contents", VStr "<button>")])])].

Definition tree_one : JsVal :=
  VObj [("collection", VObj [("name", VStr "Patterns"); ("items", VObj [])]);
        ("button", VObj [("collection", buttons)])].

Definition options_one : Render.Options :=
  {| Render.layouts_collection := "collection"; Render.other_options := [] |}.

Definition with_layout : Render.DrizzleData :=
  {| Render.patterns := tree_one;
     Render.templates := VObj [("collection", VObj [("contents", VStr "<ul>")])];
     Render.options := options_one |}.


(** An engine that renders any body, and one that rejects a body that
    is not a string. *)
Definition lenient_engine (body ctx : JsVal) (o : Render.Options)
    : Res string :=
  Ok (match body with VStr s => s | _ => "" end).


Definition plain_context (coll : JsVal) (d : Render.DrizzleData) : JsVal :=
  coll.


Definition tree_with_text : Render.DrizzleData :=
  {| Render.patterns := VObj [("note", VStr "a")];
     Render.templates := VObj [("collection", VObj [("contents", VStr "<ul>")])];
     Render.options := options_one |}.

(** The records and the front matter of the example: keys [a], [b], [c]
    and [d] in one directory, [b] hidden, explicit order [d], [a]. *)
Definition example_cfg : Patterns.Config :=
  {| Patterns.cwd := "/"; Patterns.basedir := "/src";
     Patterns.rootKey := "patterns" |}.

Definition example_data (segs : list string) : Props :=
  match segs with
  | ["btn"] => [("order", VObj [("0", VStr "d"); ("1", VStr "a")])]
  | _ => []
  end.

Definition example_record (p : string) (d : Props) : Patterns.FileRecord :=
  {| Patterns.r_path := p; Patterns.r_data := d;
     Patterns.r_contents := "<p>" +:+ p +:+ "</p>" |}.

Definition example_records : list Patterns.FileRecord :=
  [example_record "/src/btn/c.html" [];
   example_record "/src/btn/a.html" [];
   example_record "/src/btn/b.html" [("hidden", VBool true)];
   example_record "/src/btn/d.html" []].

(** Two files of one directory with the same key. *)
Definition clash_records : list Patterns.FileRecord :=
  [example_record "/src/btn/a.html" []; example_record "/src/btn/a.md" []].

Definition bad_records : list Patterns.FileRecord :=
  [example_record "/src/btn/a.html" [];
   example_record "/src/btn/localId.html" [("id", VStr "x")];
   example_record "/src/btn/c.html" []].

Definition bad_collection_data (segs : list string) : Props :=
  match segs with
  | ["badCollection"] => [("items", VObj [])]
  | _ => []
  end.

Definition example_tree : Patterns.Tree :=
  match Patterns.build example_cfg example_data example_records with
  | inr t => t
  | inl _ => Patterns.empty_tree
  end.


(** A stand-in for the regular expressions of literal patterns: the
    pattern occurs in the path. *)
Definition literal_test (pattern filepath : string) : bool :=
  Str.contains filepath pattern.

Definition markdown_rule : Utils.Rule :=
  {| Utils.pattern := Some ".md";
     Utils.parseFn := fun text p => Utils.PText ("<md>" +:+ text) |}.

Definition html_rule : Utils.Rule :=
  {| Utils.pattern := Some ".html";
     Utils.parseFn :=
       fun text p => Utils.PData [("contents", VStr text);
                                  ("path", VStr "front-matter")] |}.

Definition default_rule : Utils.Rule :=
  {| Utils.pattern := None;
     Utils.parseFn := fun text p => Utils.PText text |}.

Definition example_parsers : list (string * Utils.Rule) :=
  [("markdown", markdown_rule); ("default", default_rule);
   ("html", html_rule)].

Definition example_glob (glob : list string) (opts : Props) : list string :=
  ["src/a.html"; "src/b.md"].

Definition example_disk (filepath encoding : string) : option string :=
  if String.eqb filepath "src/a.html" then Some "<p>a</p>"
  else if String.eqb filepath "src/b.md" then Some "# b"
  else None.

Definition example_files : list Props :=
  [[("contents", VStr "<p>a</p>"); ("path", VStr "src/a.html")];
   [("contents", VStr "<md># b"); ("path", VStr "src/b.md")]].

(** A template tree without the layout of pages. *)
Definition templates_two : JsVal :=
  VObj [("page", VObj [("default", VNum 0)]); ("title", VStr "Drizzle")].

(** A disk on which [src/b.md] cannot be read. *)
Definition missing_disk (filepath encoding : string) : option string :=
  if String.eqb filepath "src/a.html" then Some "<p>a</p>" else None.


(** A rule that matches neither of the example files. *)
Definition yaml_rule : Utils.Rule :=
  {| Utils.pattern := Some ".yml";
     Utils.parseFn := fun text p => Utils.PData [] |}.

(** * Properties *)

(** ** Strings: splitting and joining *)

Lemma split_not_nil sep s : Str.split sep s ≠ [].
Proof.
  destruct s as [|c s]; simpl; [done|].
  destruct (Ascii.eqb c sep); [done|].
  by destruct (Str.split sep s).
Qed.

Lemma split_no_sep sep s : mem_char sep s = false → Str.split sep s = [s].
Proof.
  induction s as [|c s IH]; simpl; [done|].
  intros [Hc Hs]%orb_false_iff. rewrite Hc, (IH Hs). done.
Qed.

Lemma split_app_sep sep a b :
  Str.split sep (a +:+ String sep b)
  = removelast (Str.split sep a)
    ++ [List.last (Str.split sep a) EmptyString] ++ Str.split sep b.
Proof.
  induction a as [|c a IH]; simpl.
  - by rewrite Ascii.eqb_refl.
  - destruct (Ascii.eqb c sep).
    + rewrite IH. pose proof (split_not_nil sep a).
      destruct (Str.split sep a); done.
    + rewrite IH. pose proof (split_not_nil sep a).
      destruct (Str.split sep a) as [|h [|h' t]]; done.
Qed.

Lemma split_cons_sep sep s :
  Str.split sep (String sep s) = EmptyString :: Str.split sep s.
Proof. simpl. by rewrite Ascii.eqb_refl. Qed.

Lemma removelast_last_id (l : list string) :
  l ≠ [] → removelast l ++ [List.last l EmptyString] = l.
Proof. intros. symmetry. by apply app_removelast_last. Qed.

Lemma split_app sep a b :
  Str.split sep (a +:+ String sep b) = Str.split sep a ++ Str.split sep b.
Proof.
  rewrite split_app_sep, app_assoc, removelast_last_id; [done|].
  apply split_not_nil.
Qed.

Lemma split_parts_no_sep sep s :
  Forall (fun x => mem_char sep x = false) (Str.split sep s).
Proof.
  induction s as [|c s IH]; simpl; [by repeat constructor|].
  destruct (Ascii.eqb c sep) eqn:Hc; [by constructor|].
  destruct (Str.split sep s) as [|h t]; [by repeat constructor; simpl; rewrite Hc|].
  inversion IH; subst. constructor; [|done]. simpl. by rewrite Hc.
Qed.

Lemma join_cons sep x y l :
  Str.join sep (x :: y :: l) = x +:+ sep +:+ Str.join sep (y :: l).
Proof. done. Qed.

(** Splitting undoes joining when no part contains the separator. *)
Lemma split_join sep l :
  l ≠ [] → Forall (fun x => mem_char sep x = false) l →
  Str.split sep (Str.join (Str.of_char sep) l) = l.
Proof.
  induction l as [|x [|y l] IH]; [done| |].
  - intros _ Hx. inversion Hx; subst. by apply split_no_sep.
  - intros _ Hl. inversion Hl as [|? ? Hx Hl']; subst.
    rewrite join_cons.
    change (Str.of_char sep +:+ Str.join (Str.of_char sep) (y :: l))
      with (String sep (Str.join (Str.of_char sep) (y :: l))).
    rewrite split_app, (split_no_sep _ _ Hx), IH; done.
Qed.

Lemma append_cons c (p b : string) : String c p +:+ b = String c (p +:+ b).
Proof. done. Qed.

Lemma prefix_app p b : Str.prefix p (p +:+ b) = true.
Proof.
  induction p as [|c p IH]; [done|]. rewrite append_cons.
  cbn [Str.prefix]. by rewrite Ascii.eqb_refl.
Qed.

Lemma contains_cons c s p :
  Str.contains (String c s) p = Str.prefix p (String c s) || Str.contains s p.
Proof. done. Qed.

Lemma contains_prefix s p : Str.prefix p s = true → Str.contains s p = true.
Proof. intros H. destruct s; simpl; by rewrite H. Qed.

Lemma contains_app_mid a p b : Str.contains (a +:+ p +:+ b) p = true.
Proof.
  induction a as [|c a IH].
  - change (Str.contains (p +:+ b) p = true).
    apply contains_prefix, prefix_app.
  - change (String c a +:+ p +:+ b) with (String c (a +:+ p +:+ b)).
    rewrite contains_cons, IH. apply orb_true_r.
Qed.

Lemma append_empty_r (p : string) : p +:+ EmptyString = p.
Proof. induction p as [|c p IH]; [done|]. by rewrite append_cons, IH. Qed.

Lemma contains_app_end a p : Str.contains (a +:+ p) p = true.
Proof.
  pose proof (contains_app_mid a p EmptyString) as H.
  by rewrite append_empty_r in H.
Qed.

Lemma append_assoc3 (a b c d : string) :
  a +:+ b +:+ c +:+ d = (a +:+ b +:+ c) +:+ d.
Proof.
  induction a as [|x a IH]; [|by rewrite !append_cons, IH].
  change (b +:+ c +:+ d = (b +:+ c) +:+ d).
  induction b as [|y b IHb]; [done|]. by rewrite !append_cons, IHb.
Qed.

Lemma append_assoc (a b c : string) : (a +:+ b) +:+ c = a +:+ b +:+ c.
Proof. induction a as [|x a IH]; [done|]. by rewrite !append_cons, IH. Qed.

Lemma rev_onto_spec s acc : Str.rev_onto s acc = Str.rev s +:+ acc.
Proof.
  unfold Str.rev. revert acc. induction s as [|c s IH]; intros acc; [done|].
  simpl. rewrite IH, (IH (String c EmptyString)), append_assoc. done.
Qed.

Lemma str_rev_cons c s : Str.rev (String c s) = Str.rev s +:+ Str.of_char c.
Proof. unfold Str.rev at 1. simpl. apply rev_onto_spec. Qed.

Lemma str_rev_app a b : Str.rev (a +:+ b) = Str.rev b +:+ Str.rev a.
Proof.
  induction a as [|c a IH].
  - change (EmptyString +:+ b) with b. by rewrite append_empty_r.
  - by rewrite append_cons, !str_rev_cons, IH, append_assoc.
Qed.

Lemma str_rev_involutive s : Str.rev (Str.rev s) = s.
Proof.
  induction s as [|c s IH]; [done|]. by rewrite str_rev_cons, str_rev_app, IH.
Qed.

Lemma mem_char_app c a b : mem_char c (a +:+ b) = mem_char c a || mem_char c b.
Proof.
  induction a as [|x a IH]; [done|].
  rewrite append_cons. simpl. by rewrite IH, orb_assoc.
Qed.

Lemma mem_char_rev c s : mem_char c (Str.rev s) = mem_char c s.
Proof.
  induction s as [|x s IH]; [done|].
  rewrite str_rev_cons, mem_char_app, IH. simpl.
  by rewrite orb_false_r, orb_comm.
Qed.

Lemma takeWhile_app_stop f a c b :
  (∀ x, mem_char x a = true → f x = true) → f c = false →
  Str.takeWhile f (a +:+ String c b) = a.
Proof.
  intros Ha Hc. induction a as [|x a IH].
  - change (EmptyString +:+ String c b) with (String c b). simpl.
    by rewrite Hc.
  - rewrite append_cons. simpl. rewrite (Ha x), IH; [done| |].
    + intros y Hy. apply Ha. simpl. by rewrite Hy, orb_true_r.
    + simpl. by rewrite Ascii.eqb_refl.
Qed.

Lemma takeWhile_all f a :
  (∀ x, mem_char x a = true → f x = true) → Str.takeWhile f a = a.
Proof.
  intros Ha. induction a as [|x a IH]; [done|]. simpl.
  rewrite (Ha x), IH; [done| |].
  - intros y Hy. apply Ha. simpl. by rewrite Hy, orb_true_r.
  - simpl. by rewrite Ascii.eqb_refl.
Qed.

Lemma dropWhile_app_stop f a c b :
  (∀ x, mem_char x a = true → f x = true) → f c = false →
  Str.dropWhile f (a +:+ String c b) = String c b.
Proof.
  intros Ha Hc. induction a as [|x a IH].
  - change (EmptyString +:+ String c b) with (String c b). simpl.
    by rewrite Hc.
  - rewrite append_cons. simpl. rewrite (Ha x), IH; [done| |].
    + intros y Hy. apply Ha. simpl. by rewrite Hy, orb_true_r.
    + simpl. by rewrite Ascii.eqb_refl.
Qed.

Lemma dropWhile_all f a :
  (∀ x, mem_char x a = true → f x = true) →
  Str.dropWhile f a = EmptyString.
Proof.
  intros Ha. induction a as [|x a IH]; [done|]. simpl.
  rewrite (Ha x), IH; [done| |].
  - intros y Hy. apply Ha. simpl. by rewrite Hy, orb_true_r.
  - simpl. by rewrite Ascii.eqb_refl.
Qed.

Lemma dropWhile_stop f c s : f c = false → Str.dropWhile f (String c s) = String c s.
Proof. intros H. simpl. by rewrite H. Qed.

Lemma not_mem_char c s x :
  mem_char c s = false → mem_char x s = true → negb (Ascii.eqb x c) = true.
Proof.
  intros Hc Hx. destruct (Ascii.eqb x c) eqn:E; [|done].
  apply Ascii.eqb_eq in E as ->. congruence.
Qed.

Lemma drop_length_app a b : Str.drop (String.length a) (a +:+ b) = b.
Proof.
  induction a as [|c a IH]; [by destruct b|]. by rewrite append_cons.
Qed.

Lemma length_append (a b : string) :
  String.length (a +:+ b) = String.length a + String.length b.
Proof.
  induction a as [|c a IH]; [done|]. rewrite append_cons. simpl. by rewrite IH.
Qed.

Lemma length_rev (s : string) : String.length (Str.rev s) = String.length s.
Proof.
  induction s as [|c s IH]; [done|].
  rewrite str_rev_cons, length_append, IH. simpl. lia.
Qed.

Lemma eqb_longer (a b : string) :
  Str.nonempty a = true → String.eqb b (a +:+ b) = false.
Proof.
  intros Ha. apply String.eqb_neq. intros Heq.
  apply (f_equal String.length) in Heq.
  rewrite length_append in Heq. destruct a; [done|]. simpl in Heq. lia.
Qed.

(** Joining undoes splitting. *)
Lemma join_split sep s : Str.join (Str.of_char sep) (Str.split sep s) = s.
Proof.
  induction s as [|c s IH]; [done|]. simpl.
  destruct (Ascii.eqb c sep) eqn:E.
  - apply Ascii.eqb_eq in E as ->.
    pose proof (split_not_nil sep s) as Hne.
    destruct (Str.split sep s) as [|h t] eqn:Hs; [done|].
    rewrite join_cons, IH. done.
  - pose proof (split_not_nil sep s) as Hne.
    destruct (Str.split sep s) as [|h [|h' t]] eqn:Hs; [done| |].
    + simpl in *. by rewrite IH.
    + rewrite !join_cons in *. rewrite append_cons. by rewrite IH.
Qed.

Lemma ends_with_app c a b :
  Str.nonempty b = true → Str.ends_with c (a +:+ b) = Str.ends_with c b.
Proof.
  intros Hb. unfold Str.ends_with. rewrite str_rev_app.
  destruct (Str.rev b) as [|x r] eqn:E; [|done].
  apply (f_equal Str.rev) in E. rewrite str_rev_involutive in E. by subst b.
Qed.

Lemma ends_with_sep_split dir :
  Str.ends_with Path.sep dir = true → ∃ d, dir = d +:+ Path.sep_s.
Proof.
  unfold Str.ends_with, Str.starts_with. intros H.
  destruct (Str.rev dir) as [|c r] eqn:E; [done|].
  apply Ascii.eqb_eq in H as ->. exists (Str.rev r).
  apply (f_equal Str.rev) in E. rewrite str_rev_involutive in E.
  by rewrite E, str_rev_cons.
Qed.

Lemma nonempty_app_r a b : Str.nonempty b = true → Str.nonempty (a +:+ b) = true.
Proof. intros Hb. destruct a; [exact Hb|done]. Qed.

Lemma str_map_app f a b : Str.map f (a +:+ b) = Str.map f a +:+ Str.map f b.
Proof. induction a as [|c a IH]; [done|]. rewrite !append_cons. simpl. by rewrite IH. Qed.

Lemma mem_char_takeWhile c f s :
  mem_char c (Str.takeWhile f s) = true → f c = true.
Proof.
  induction s as [|a s IH]; simpl; [done|].
  destruct (f a) eqn:Ha; [|done]. simpl.
  intros [Hc|Hc]%orb_true_iff; [|by apply IH].
  by apply Ascii.eqb_eq in Hc as <-.
Qed.

Lemma mem_char_dropWhile c f s :
  mem_char c s = false → mem_char c (Str.dropWhile f s) = false.
Proof.
  induction s as [|a s IH]; simpl; [done|].
  intros [Ha Hs]%orb_false_iff. destruct (f a); [by apply IH|].
  simpl. by rewrite Ha, Hs.
Qed.

Lemma mem_char_drop c n s :
  mem_char c s = false → mem_char c (Str.drop n s) = false.
Proof.
  revert s. induction n as [|n IH]; intros s; [by destruct s|].
  destruct s as [|a s]; [done|]. simpl.
  intros [_ Hs]%orb_false_iff. by apply IH.
Qed.

Lemma mem_char_map c f s :
  mem_char c (Str.map f s) = true → ∃ a, f a = c.
Proof.
  induction s as [|a s IH]; simpl; [done|].
  intros [Hc|Hc]%orb_true_iff; [|by apply IH].
  apply Ascii.eqb_eq in Hc. by exists a.
Qed.

(** A fact about every character, checked on each of them. *)
Ltac by_cases c :=
  destruct c as [[] [] [] [] [] [] [] []]; vm_compute;
  try reflexivity; try discriminate; try (intros; discriminate); auto.

(** *** Lists *)

Lemma filter_all {A} (P : A → Prop) `{∀ x, Decision (P x)} (l : list A) :
  Forall P l → filter P l = l.
Proof.
  induction 1 as [|x l Hx _ IH]; [done|].
  by rewrite filter_cons_True, IH.
Qed.

Lemma filter_none {A} (P : A → Prop) `{∀ x, Decision (P x)} (l : list A) :
  Forall (fun x => ¬ P x) l → filter P l = [].
Proof.
  induction 1 as [|x l Hx _ IH]; [done|].
  by rewrite filter_cons_False.
Qed.

Lemma Forall_filter_keep {A} (P Q : A → Prop) `{∀ x, Decision (P x)}
    (l : list A) :
  Forall Q l → Forall Q (filter P l).
Proof.
  intros Hl. apply Forall_forall. intros x [_ Hx]%list_elem_of_filter.
  by apply (proj1 (Forall_forall _ _) Hl).
Qed.

Lemma existsb_eqb_elem (x : string) l :
  existsb (String.eqb x) l = true ↔ x ∈ l.
Proof.
  rewrite existsb_exists. split.
  - intros (y & Hin & ->%String.eqb_eq). by apply list_elem_of_In.
  - intros Hin. exists x. split; [by apply list_elem_of_In|apply String.eqb_refl].
Qed.

(** ** [resourcePath] *)

Lemma pop_text_snoc l x : Shared.pop_text (l ++ [x]) = x.
Proof.
  unfold Shared.pop_text. destruct (l ++ [x]) eqn:E.
  - by destruct l.
  - rewrite <- E. apply last_last.
Qed.

Lemma join_skips_empty dest x :
  Path.join [dest; ""; x] = Path.join [dest; x].
Proof. unfold Path.join. by destruct dest. Qed.

(** C8: an ID of several dot-separated segments loses its first segment,
    the segments before the last become directories and the last one,
    with [.html] appended, the file name, all joined to [dest] and
    normalized; a single-segment ID is the file name. *)
Theorem resourcePath_spec (first last_ dest : string) (mid : list string) :
  Forall (fun x => mem_char "." x = false) (first :: mid ++ [last_]) →
  Shared.resourcePath (Str.join "." (first :: mid ++ [last_])) dest
    = Path.normalize
        (Path.join [dest; Str.join "/" mid; last_ +:+ ".html"])
  ∧ Shared.resourcePath last_ dest
    = Path.normalize (Path.join [dest; last_ +:+ ".html"])
  ∧ Shared.resourcePath "components.button.base" "" = "button/base.html"
  ∧ Shared.resourcePath "pink" "" = "pink.html".
Proof.
  intros Hseg. split; [|split; [|split; vm_compute; reflexivity]].
  - unfold Shared.resourcePath, Shared.idKeys.
    change "."%string with (Str.of_char "."%char).
    rewrite split_join by done.
    replace (1 <? length (first :: mid ++ [last_])) with true.
    2:{ symmetry. apply Nat.ltb_lt. simpl. rewrite length_app. simpl. lia. }
    simpl tail. by rewrite pop_text_snoc, removelast_last.
  - unfold Shared.resourcePath, Shared.idKeys.
    rewrite split_no_sep.
    2:{ inversion Hseg as [|? ? _ H]; subst.
        apply Forall_app in H as [_ H]. by inversion H. }
    simpl. apply (f_equal Path.normalize), join_skips_empty.
Qed.

(** The ID of a pattern three directories deep. *)
Lemma resourcePath_spec_witness :
  Forall (fun x => mem_char "." x = false)
    ("patterns" :: ["components"; "button"] ++ ["base"])
  ∧ Shared.resourcePath "patterns.components.button.base" "site"
    = "site/components/button/base.html".
Proof.
  split; [repeat constructor|].
  etrans;
    [apply (resourcePath_spec "patterns" "base" "site" ["components"; "button"]);
     repeat constructor|].
  vm_compute. reflexivity.
Defined.

(** ** File names: directory and extension *)

(** The last component of [pre ++ comp], where [pre] is empty or ends
    with a separator and [comp] is a file name. *)
Lemma lastComponent_file pre comp :
  (pre = EmptyString ∨ Str.ends_with Path.sep pre = true) →
  mem_char Path.sep comp = false → Str.nonempty comp = true →
  Path.lastComponent (pre +:+ comp) = comp.
Proof.
  intros Hpre Hsep Hne. unfold Path.lastComponent. rewrite str_rev_app.
  assert (∀ x, mem_char x (Str.rev comp) = true →
               negb (Path.is_sep x) = true) as Hall.
  { intros x Hx. apply (not_mem_char _ (Str.rev comp)); [|done].
    by rewrite mem_char_rev. }
  destruct (Str.rev comp) as [|c rc] eqn:Hrc.
  { apply (f_equal Str.rev) in Hrc. rewrite str_rev_involutive in Hrc.
    by subst comp. }
  rewrite append_cons, dropWhile_stop.
  2:{ specialize (Hall c). simpl in Hall. rewrite Ascii.eqb_refl in Hall.
      by apply negb_true_iff, Hall. }
  rewrite <- append_cons, <- Hrc.
  destruct Hpre as [->|Hpre].
  - change (Str.rev EmptyString) with EmptyString. rewrite append_empty_r.
    rewrite takeWhile_all; [apply str_rev_involutive|].
    by rewrite Hrc.
  - unfold Str.ends_with, Str.starts_with in Hpre.
    destruct (Str.rev pre) as [|s rp]; [done|].
    apply Ascii.eqb_eq in Hpre as ->.
    rewrite takeWhile_app_stop; [apply str_rev_involutive|by rewrite Hrc|done].
Qed.

(** X1: on the name of a file, [extname] is the text from the last
    dot on, and [basename] and the [keyname] of [shared.js] strip the
    directory and that extension. *)
Lemma basename_of_file pre stem ext :
  (pre = EmptyString ∨ Str.ends_with Path.sep pre = true) →
  mem_char Path.sep stem = false → mem_char Path.sep ext = false →
  mem_char "." ext = false → Str.nonempty stem = true →
  ¬ (stem = "." ∧ ext = EmptyString) →
  Path.extname (pre +:+ stem +:+ "." +:+ ext) = "." +:+ ext
  ∧ Utils.basename (pre +:+ stem +:+ "." +:+ ext) = stem
  ∧ Shared.keyname (pre +:+ stem +:+ "." +:+ ext) = stem.
Proof.
  intros Hpre Hs1 Hs2 Hdot Hne Hdots.
  set (comp := stem +:+ "." +:+ ext).
  assert (Path.lastComponent (pre +:+ comp) = comp) as Hlast.
  { apply lastComponent_file; [done| |].
    - unfold comp. rewrite !mem_char_app, Hs1, Hs2. done.
    - unfold comp. by destruct stem. }
  assert (Str.rev comp = Str.rev ext +:+ String "." (Str.rev stem)) as Hrev.
  { unfold comp. rewrite str_rev_app.
    change ("." +:+ ext) with (String "."%char ext).
    rewrite str_rev_cons, append_assoc. done. }
  assert (∀ x, mem_char x (Str.rev ext) = true →
               negb (Ascii.eqb x ".") = true) as Hext.
  { intros x Hx. apply (not_mem_char _ (Str.rev ext)); [|done].
    by rewrite mem_char_rev. }
  assert (Path.extname (pre +:+ comp) = "." +:+ ext) as Hextname.
  { unfold Path.extname. rewrite Hlast, Hrev.
    rewrite dropWhile_app_stop by done.
    rewrite takeWhile_app_stop by done. rewrite str_rev_involutive.
    destruct (Str.rev stem) as [|c rs] eqn:Hrs.
    { apply (f_equal Str.rev) in Hrs. rewrite str_rev_involutive in Hrs.
      by subst stem. }
    simpl negb. simpl orb.
    destruct (String.eqb comp "..") eqn:E; [|done].
    exfalso. apply String.eqb_eq in E. apply Hdots. unfold comp in E.
    destruct stem as [|a [|b stem]]; [done| |]; cbv in E.
    + injection E as -> E. by destruct ext.
    + injection E as -> -> E. by destruct stem. }
  split; [done|].
  assert (Utils.basename (pre +:+ comp) = stem) as Hbase.
  { unfold Utils.basename. rewrite Hextname. unfold Path.basename.
    rewrite Hlast. change (Str.nonempty ("." +:+ ext)) with true. simpl negb.
    cbv iota.
    replace (String.eqb ("." +:+ ext) (pre +:+ comp)) with false.
    2:{ symmetry. unfold comp.
        rewrite <- (append_assoc pre stem ("." +:+ ext)).
        apply eqb_longer. destruct pre; [by destruct stem|done]. }
    replace (String.eqb ("." +:+ ext) comp) with false
      by (symmetry; by apply eqb_longer).
    change (Str.rev ("." +:+ ext)) with (Str.rev (String "."%char ext)).
    rewrite str_rev_cons, Hrev.
    change (String "." (Str.rev stem))
      with (Str.of_char "." +:+ Str.rev stem).
    rewrite <- append_assoc, prefix_app.
    replace (String.length ("." +:+ ext))
      with (String.length (Str.rev ext +:+ Str.of_char ".")).
    2:{ rewrite length_append, length_rev.
        change ("." +:+ ext) with (String "."%char ext). simpl. lia. }
    by rewrite drop_length_app, str_rev_involutive. }
  split; [done|]. exact Hbase.
Qed.

(** ** [keyname] *)

Lemma dropWhile_leading_agree name :
  Str.starts_with "|" (Str.dropWhile spec_leading_class name) = false →
  Str.dropWhile Utils.leading_class name
  = Str.dropWhile spec_leading_class name.
Proof.
  induction name as [|c name IH]; simpl; [done|].
  unfold Utils.leading_class, spec_leading_class in *.
  destruct (Str.is_digit c); simpl; [done|].
  destruct (Ascii.eqb c "|") eqn:Hbar; simpl.
  - destruct (Ascii.eqb c ".") eqn:Hdot; simpl; [done|].
    destruct (Ascii.eqb c "-") eqn:Hdash; simpl; [done|].
    by rewrite Hbar.
  - destruct (Ascii.eqb c "."); simpl; [done|].
    by destruct (Ascii.eqb c "-").
Qed.

(** C6, counterexample: a leading [|] is removed as well, and the
    [keyname] of [shared.js] keeps the leading run. *)
Lemma keyname_counterexample :
  Utils.keyname "|intro.html" true = "intro"
  ∧ Utils.keyname "|intro.html" true ≠ keyname_spec "|intro.html" true
  ∧ Shared.keyname "01-intro.html" ≠ "intro".
Proof. repeat split; vm_compute; congruence. Qed.

(** C6, amended: on a name whose leading run of digits, [.] and [-] is
    not followed by [|], [keyname] with default options is the name
    without directory and extension, whitespace replaced by [-], and
    that run removed; with [stripNumbers:false] the run is kept;
    [keyname] of [shared.js] only strips directory and extension. *)
Theorem keyname_amended (str : string) :
  Str.starts_with "|"
    (Str.dropWhile spec_leading_class
       (Str.map Utils.space_to_dash (Utils.basename str))) = false →
  Utils.keyname str true = keyname_spec str true
  ∧ Utils.keyname str false = keyname_spec str false
  ∧ Shared.keyname str = Path.basename str (Path.extname str)
  ∧ Utils.keyname "01-intro.html" true = "intro"
  ∧ Utils.keyname "01-intro.html" false = "01-intro"
  ∧ Utils.keyname "docs/my page.v2.html" true = "my-page.v2".
Proof.
  intros H. repeat split; try (vm_compute; reflexivity).
  unfold Utils.keyname, keyname_spec, Utils.removeLeadingNumbers.
  by apply dropWhile_leading_agree.
Qed.

(** A numbered file name with a space. *)
Lemma keyname_amended_witness :
  Str.starts_with "|"
    (Str.dropWhile spec_leading_class
       (Str.map Utils.space_to_dash (Utils.basename "src/02.1-big button.html")))
    = false
  ∧ Utils.keyname "src/02.1-big button.html" true = "big-button".
Proof.
  split; [vm_compute; reflexivity|].
  etrans; [apply (keyname_amended "src/02.1-big button.html");
           vm_compute; reflexivity|].
  vm_compute. reflexivity.
Defined.

(** ** [relativePathArray] *)

Lemma norm_fold_plain b parts acc :
  Forall (fun x => mem_char Path.sep x = false) parts →
  Forall plain_part acc →
  Forall plain_part (fold_left (Path.norm_step b) parts acc).
Proof.
  revert acc. induction parts as [|seg parts IH]; intros acc Hp Ha; [done|].
  inversion Hp as [|? ? Hseg Hp']; subst. simpl. apply IH; [done|].
  unfold Path.norm_step.
  destruct (String.eqb seg "") eqn:He; [done|]. simpl.
  assert (plain_part seg) as Hplain.
  { split; [done|]. by destruct seg. }
  destruct (String.eqb seg "."); [done|].
  destruct (String.eqb seg "..").
  - destruct acc as [|top below].
    + destruct b; [by apply Forall_cons_2|by apply Forall_nil].
    + inversion Ha; subst.
      destruct (String.eqb top ".."); [by apply Forall_cons_2|done].
  - by apply Forall_cons_2.
Qed.

Lemma normalizeArray_plain b parts :
  Forall (fun x => mem_char Path.sep x = false) parts →
  Forall plain_part (Path.normalizeArray b parts).
Proof.
  intros. unfold Path.normalizeArray. apply Forall_rev.
  by apply norm_fold_plain.
Qed.

Lemma normalizeArray_snoc b parts seg :
  String.eqb seg "" = false → String.eqb seg "." = false →
  String.eqb seg ".." = false →
  Path.normalizeArray b (parts ++ [seg]) = Path.normalizeArray b parts ++ [seg].
Proof.
  intros H1 H2 H3. unfold Path.normalizeArray.
  rewrite fold_left_app. simpl. unfold Path.norm_step at 1.
  by rewrite H1, H2, H3.
Qed.

Lemma filter_plain (l : list string) :
  Forall plain_part l → filter (fun s => Str.nonempty s = true) l = l.
Proof.
  induction 1 as [|x l [_ Hx] _ IH]; [done|].
  rewrite filter_cons_True by done. by rewrite IH.
Qed.

(** The components of a resolved path are those it was assembled from. *)
Lemma segments_rooted (parts : list string) :
  Forall plain_part parts →
  Path.segments (Path.sep_s +:+ Str.join Path.sep_s parts) = parts.
Proof.
  intros Hp. unfold Path.segments.
  change (Path.sep_s +:+ Str.join Path.sep_s parts)
    with (String Path.sep (Str.join (Str.of_char Path.sep) parts)).
  rewrite split_cons_sep, filter_cons_False by done.
  destruct parts as [|x parts]; [done|].
  rewrite split_join; [by apply filter_plain|done|].
  eapply Forall_impl; [exact Hp|]. by intros ? [? _].
Qed.

Lemma elem_of_repeat_up n (x : string) : x ∈ repeat ".." n → x = "..".
Proof. induction n; simpl; [by intros ?%elem_of_nil|]. by intros [?|?]%elem_of_cons; auto. Qed.

Lemma rel_parts_elem fp tp x :
  x ∈ Path.rel_parts fp tp → x = ".." ∨ x ∈ tp.
Proof.
  revert tp. induction fp as [|f fp IH]; intros tp; simpl.
  - auto.
  - destruct tp as [|t tp].
    + rewrite app_nil_r. intros [->|H%elem_of_repeat_up]%elem_of_cons; auto.
    + destruct (String.eqb f t).
      * intros [?|?]%IH; [auto|right; by apply elem_of_cons; right].
      * change (".." :: repeat ".." (length fp) ++ t :: tp)
          with (repeat ".." (S (length fp)) ++ t :: tp).
        intros [H%elem_of_repeat_up|H]%elem_of_app; auto.
Qed.

(** A relative path without [..] steps means [from] leads to [to]. *)
Lemma rel_parts_no_up fp tp :
  ".." ∉ Path.rel_parts fp tp → tp = fp ++ Path.rel_parts fp tp.
Proof.
  revert tp. induction fp as [|f fp IH]; intros tp; simpl; [done|].
  destruct tp as [|t tp].
  - intros []. by apply elem_of_cons; left.
  - destruct (String.eqb f t) eqn:E.
    + apply String.eqb_eq in E as ->. intros H. f_equal. by apply IH.
    + intros []. by apply elem_of_cons; left.
Qed.

Lemma relative_named_dir_shape cwd :
  ∃ N0, Forall plain_part (N0 ++ ["baz"]) ∧
    (Path.relative cwd "baz" "/a/b/baz/c/d" = ""
     ∨ Path.relative cwd "baz" "/a/b/baz/c/d"
       = Str.join (Str.of_char Path.sep)
           (Path.rel_parts (N0 ++ ["baz"]) ["a"; "b"; "baz"; "c"; "d"])).
Proof.
  exists (Path.normalizeArray false (Str.split Path.sep cwd)).
  assert (Forall plain_part
            (Path.normalizeArray false (Str.split Path.sep cwd) ++ ["baz"]))
    as Hplain.
  { apply Forall_app. split; [|by repeat constructor].
    apply normalizeArray_plain, split_parts_no_sep. }
  split; [done|].
  unfold Path.relative.
  replace (String.eqb "baz" "/a/b/baz/c/d") with false by reflexivity.
  replace (Path.resolve cwd "/a/b/baz/c/d") with "/a/b/baz/c/d"
    by (vm_compute; reflexivity).
  destruct (String.eqb _ "/a/b/baz/c/d"); [by left|right].
  unfold Path.resolve.
  replace (Path.isAbsolute "baz") with false by reflexivity.
  change (cwd +:+ Path.sep_s +:+ "baz") with (cwd +:+ String Path.sep "baz").
  rewrite split_app.
  replace (Str.split Path.sep "baz") with ["baz"] by reflexivity.
  rewrite normalizeArray_snoc by reflexivity.
  rewrite (segments_rooted _ Hplain).
  replace (Path.segments "/a/b/baz/c/d") with ["a"; "b"; "baz"; "c"; "d"]
    by (vm_compute; reflexivity).
  done.
Qed.

Lemma relative_named_dir cwd :
  let keys := Path.relative cwd "baz" "/a/b/baz/c/d" in
  (if Str.nonempty keys then Str.split Path.sep keys else []) ≠ doc_target.
Proof.
  cbv zeta.
  destruct (relative_named_dir_shape cwd) as (N0 & Hplain & [->| ->]); [done|].
  set (P := Path.rel_parts _ _).
  assert (Forall (fun x => mem_char Path.sep x = false) P) as HP.
  { apply Forall_forall. intros x [->|Hx]%rel_parts_elem; [done|].
    set_unfold in Hx. by destruct Hx as [->|[->|[->|[->|[->|[]]]]]]. }
  destruct (Str.nonempty (Str.join (Str.of_char Path.sep) P)) eqn:Hne; [|done].
  assert (P ≠ []) as HP0 by (by intros Hnil; rewrite Hnil in Hne).
  rewrite split_join by done. intros Heq.
  assert (".." ∉ P) as Hup.
  { rewrite Heq. unfold doc_target. intros Hin.
    repeat (apply elem_of_cons in Hin as [Hin|Hin]; [discriminate|]).
    by apply elem_of_nil in Hin. }
  apply rel_parts_no_up in Hup. fold P in Hup. rewrite Heq in Hup.
  pose proof (f_equal length Hup) as Hlen.
  rewrite !length_app in Hlen. simpl in Hlen.
  destruct N0 as [|x [|y N0]]; simpl in *; [lia| |lia].
  discriminate Hup.
Qed.

(** C7: the documented example. Whatever the working directory,
    [relativePathArray("/a/b/baz/c/d/f.txt", "baz")] is not
    [["baz","c","d"]], in either version of the function; the second
    example holds in [shared.js]. *)
Theorem relativePathArray_doc_example (cwd : string) :
  Shared.relativePathArray cwd "/a/b/baz/c/d/f.txt" "baz" ≠ ["baz"; "c"; "d"]
  ∧ Utils.relativePathArray cwd "/a/b/baz/c/d/f.txt" "baz" ≠ ["baz"; "c"; "d"]
  ∧ Shared.relativePathArray "/home/u" "/a/b/baz/c/d/f.txt" "baz"
    = [".."; ".."; ".."; "a"; "b"; "baz"; "c"; "d"]
  ∧ Shared.relativePathArray "/a/b" "/a/b/baz/c/d/f.txt" "baz" = ["c"; "d"]
  ∧ Shared.relativePathArray cwd "/a/b/f.txt" "zzz" = [].
Proof.
  pose proof (relative_named_dir cwd) as H. simpl in H.
  repeat split; try (vm_compute; reflexivity).
  - unfold Shared.relativePathArray.
    replace (negb (Str.contains "/a/b/baz/c/d/f.txt" "baz")
             || String.eqb "/a/b/baz/c/d/f.txt" "baz") with false
      by reflexivity.
    replace (Path.dirname "/a/b/baz/c/d/f.txt") with "/a/b/baz/c/d"
      by (vm_compute; reflexivity).
    exact H.
  - unfold Utils.relativePathArray.
    replace (Path.dirname "/a/b/baz/c/d/f.txt") with "/a/b/baz/c/d"
      by (vm_compute; reflexivity).
    exact H.
Qed.

(** *** From an absolute directory *)

Lemma join_snoc sep l x :
  l ≠ [] → Str.join sep (l ++ [x]) = Str.join sep l +:+ sep +:+ x.
Proof.
  induction l as [|a [|b l] IH]; [done|done|]. intros _.
  change (Str.join sep ((a :: b :: l) ++ [x]))
    with (a +:+ sep +:+ Str.join sep ((b :: l) ++ [x])).
  rewrite IH by done. rewrite join_cons. by rewrite !append_assoc.
Qed.

Lemma join_app sep l r :
  l ≠ [] → r ≠ [] →
  Str.join sep (l ++ r) = Str.join sep l +:+ sep +:+ Str.join sep r.
Proof.
  intros Hl. revert l Hl. induction r as [|x [|y r] IH]; intros l Hl Hr;
    [done|by apply join_snoc|].
  replace (l ++ x :: y :: r) with ((l ++ [x]) ++ y :: r)
    by (by rewrite <- app_assoc).
  rewrite IH by (done || by destruct l).
  rewrite join_snoc by done. rewrite join_cons. by rewrite !append_assoc.
Qed.

Lemma join_nonempty sep l :
  l ≠ [] → Forall plain_part l → Str.nonempty (Str.join sep l) = true.
Proof.
  destruct l as [|x [|y l]]; [done| |]; intros _ Hl;
    inversion Hl as [|? ? [_ Hx] _]; subst; [done|].
  rewrite join_cons. by destruct x.
Qed.

Lemma norm_fold_names b l acc :
  Forall name_part l →
  fold_left (Path.norm_step b) l acc = rev l ++ acc.
Proof.
  revert acc. induction l as [|x l IH]; intros acc Hl; [done|].
  inversion Hl as [|? ? [[_ Hne] [Hd Hdd]] Hl']; subst. simpl.
  rewrite <- app_assoc. simpl. rewrite <- IH by done. f_equal.
  unfold Path.norm_step. rewrite Hd, Hdd.
  replace (String.eqb x "") with false; [done|]. by destruct x.
Qed.

Lemma resolve_abs cwd segs :
  Forall name_part segs → Path.resolve cwd (abs_path segs) = abs_path segs.
Proof.
  intros Hs. unfold Path.resolve, abs_path.
  change (Path.isAbsolute (Path.sep_s +:+ Str.join Path.sep_s segs)) with true.
  cbv iota.
  change (Path.sep_s +:+ Str.join Path.sep_s segs)
    with (String Path.sep (Str.join (Str.of_char Path.sep) segs)) at 1.
  rewrite split_cons_sep. unfold Path.normalizeArray.
  change (fold_left (Path.norm_step false) (EmptyString :: ?l) [])
    with (fold_left (Path.norm_step false) l []).
  destruct segs as [|x segs].
  - done.
  - rewrite split_join; [|done|].
    + by rewrite norm_fold_names, app_nil_r, List.rev_involutive.
    + eapply Forall_impl; [exact Hs|]. by intros ? [[? _] _].
Qed.

Lemma rel_parts_prefix l r : Path.rel_parts l (l ++ r) = r.
Proof.
  induction l as [|x l IH]; simpl; [by destruct r|].
  by rewrite String.eqb_refl.
Qed.

Lemma names_plain l : Forall name_part l → Forall plain_part l.
Proof. intros H. eapply Forall_impl; [exact H|]. by intros ? [? _]. Qed.

Lemma eqb_extended (a b : string) :
  Str.nonempty b = true → String.eqb (a +:+ b) a = false.
Proof.
  intros Hb. apply String.eqb_neq. intros Heq.
  apply (f_equal String.length) in Heq.
  rewrite length_append in Heq. destruct b; [done|]. simpl in Heq. lia.
Qed.

(** [abs_path (l ++ r)] continues [abs_path l]. *)
Lemma abs_path_app l r :
  r ≠ [] → Forall plain_part r →
  ∃ tail, abs_path (l ++ r) = abs_path l +:+ tail
          ∧ Str.nonempty tail = true.
Proof.
  intros Hr Hplain. unfold abs_path. destruct l as [|x l].
  - exists (Str.join Path.sep_s r). split; [done|]. by apply join_nonempty.
  - exists (Path.sep_s +:+ Str.join Path.sep_s r).
    rewrite join_app by done. by rewrite !append_assoc.
Qed.

Lemma dropWhile_keep f a b :
  Str.nonempty a = true → (∀ x, mem_char x a = true → f x = false) →
  Str.dropWhile f (a +:+ b) = a +:+ b.
Proof.
  intros Hne Ha. destruct a as [|c a]; [done|]. rewrite append_cons.
  apply dropWhile_stop, Ha. simpl. by rewrite Ascii.eqb_refl.
Qed.

Lemma nonempty_rev s : Str.nonempty (Str.rev s) = Str.nonempty s.
Proof.
  destruct s as [|c s]; [done|]. rewrite str_rev_cons.
  by destruct (Str.rev s).
Qed.

Lemma dirname_abs segs file :
  Forall plain_part segs → plain_part file →
  Path.dirname (abs_path (segs ++ [file])) = abs_path segs.
Proof.
  intros Hsegs [Hsep Hne]. unfold abs_path.
  change (Path.sep_s +:+ ?x) with (String Path.sep x).
  unfold Path.dirname. change (Path.is_sep Path.sep) with true. cbv iota.
  assert (∀ x, mem_char x (Str.rev file) = true → Path.is_sep x = false)
    as Hfile.
  { intros x Hx. apply negb_true_iff.
    apply (not_mem_char _ (Str.rev file)); [|done]. by rewrite mem_char_rev. }
  assert (∀ x, mem_char x (Str.rev file) = true →
               negb (Path.is_sep x) = true) as Hfile'.
  { intros x Hx. apply negb_true_iff. by apply Hfile. }
  assert (Str.nonempty (Str.rev file) = true) as Hrne
    by (by rewrite nonempty_rev).
  destruct segs as [|x segs].
  - simpl app. simpl Str.join.
    rewrite <- (append_empty_r (Str.rev file)).
    rewrite dropWhile_keep by done. rewrite append_empty_r.
    by rewrite dropWhile_all.
  - rewrite join_snoc by done.
    rewrite !str_rev_app.
    change (Str.rev Path.sep_s) with (Str.of_char Path.sep).
    rewrite append_assoc.
    change (Str.of_char Path.sep +:+ ?r) with (String Path.sep r).
    rewrite dropWhile_keep by done.
    rewrite dropWhile_app_stop by done.
    destruct (Str.rev (Str.join Path.sep_s (x :: segs))) as [|d r3] eqn:Hr3.
    { apply (f_equal Str.rev) in Hr3. rewrite str_rev_involutive in Hr3.
      pose proof (join_nonempty Path.sep_s (x :: segs) ltac:(done) Hsegs) as H.
      by rewrite Hr3 in H. }
    by rewrite <- Hr3, str_rev_involutive.
Qed.

(** X2: from an absolute base directory, the result is the directories
    between the base and the file. *)
Lemma relativePathArray_under_base cwd base dirs file :
  Forall name_part (base ++ dirs ++ [file]) →
  Shared.relativePathArray cwd (abs_path (base ++ dirs ++ [file]))
    (abs_path base) = dirs.
Proof.
  intros Hall. apply Forall_app in Hall as [Hbase Hrest].
  apply Forall_app in Hrest as [Hdirs Hfile].
  inversion Hfile as [|? ? [Hfplain _] _]; subst.
  unfold Shared.relativePathArray.
  destruct (abs_path_app base (dirs ++ [file])) as (tail & Htail & Hne).
  { by destruct dirs. }
  { apply names_plain, Forall_app. by split. }
  rewrite Htail, contains_prefix by apply prefix_app.
  rewrite eqb_extended by done. simpl negb. simpl orb. cbv iota.
  rewrite <- Htail, app_assoc, dirname_abs;
    [|apply names_plain, Forall_app; by split|done].
  unfold Path.relative.
  destruct dirs as [|d dirs].
  { rewrite app_nil_r, String.eqb_refl. done. }
  destruct (abs_path_app base (d :: dirs)) as (tail' & Htail' & Hne');
    [done|by apply names_plain|].
  rewrite String.eqb_sym, Htail', eqb_extended by done.
  rewrite <- Htail', !resolve_abs by (done || by apply Forall_app).
  rewrite String.eqb_sym, Htail', eqb_extended by done.
  rewrite <- Htail'. unfold abs_path.
  rewrite !segments_rooted
    by (apply names_plain; done || by apply Forall_app).
  rewrite rel_parts_prefix.
  rewrite join_nonempty by (done || by apply names_plain).
  change Path.sep_s with (Str.of_char Path.sep).
  apply split_join; [done|].
  eapply Forall_impl; [exact Hdirs|]. by intros ? [[? _] _].
Qed.

Example relativePathArray_under_base_ex :
  Shared.relativePathArray "/home/u" "/a/b/baz/c/d/f.txt" "/a/b/baz"
  = ["c"; "d"].
Proof. vm_compute. reflexivity. Qed.

(** X2, at a pattern two directories below the base. *)
Lemma relativePathArray_under_base_witness :
  Shared.relativePathArray "/home/u" "/srv/site/patterns/components/button/base.html"
    "/srv/site/patterns" = ["components"; "button"].
Proof.
  apply (relativePathArray_under_base "/home/u" ["srv"; "site"; "patterns"]
           ["components"; "button"] "base.html").
  repeat constructor.
Defined.

Lemma segments_plain p : Forall plain_part (Path.segments p).
Proof.
  unfold Path.segments. apply Forall_forall.
  intros x [Hne Hin]%list_elem_of_filter. split; [|done].
  by apply (proj1 (Forall_forall _ _) (split_parts_no_sep Path.sep p)).
Qed.

Lemma relative_parts cwd from to :
  Forall plain_part
    (if Str.nonempty (Path.relative cwd from to)
     then Str.split Path.sep (Path.relative cwd from to) else []).
Proof.
  unfold Path.relative.
  destruct (String.eqb from to); [done|].
  destruct (String.eqb _ _); [done|].
  set (P := Path.rel_parts _ _).
  assert (Forall plain_part P) as HP.
  { apply Forall_forall. intros x [->|Hx]%rel_parts_elem; [done|].
    by apply (proj1 (Forall_forall _ _) (segments_plain (Path.resolve cwd to))). }
  destruct (Str.nonempty _) eqn:Hne; [|done].
  change Path.sep_s with (Str.of_char Path.sep) in *.
  rewrite split_join; [done| |].
  - intros ->. done.
  - eapply Forall_impl; [exact HP|]. by intros ? [? _].
Qed.

(** X3: the keys [relativePathArray] returns are never empty and hold
    no separator, in either version and whatever the paths and the
    working directory. *)
Theorem relativePathArray_parts (cwd filePath fromPath : string) :
  Forall plain_part (Utils.relativePathArray cwd filePath fromPath)
  ∧ Forall plain_part (Shared.relativePathArray cwd filePath fromPath).
Proof.
  split.
  - apply relative_parts.
  - unfold Shared.relativePathArray.
    destruct (_ || _); [done|apply relative_parts].
Qed.

(** ** [dirname], [localDirname] and [parentDirname] *)

Lemma plain_first_char c s : plain_part (String c s) → Path.is_sep c = false.
Proof.
  intros [Hsep _]. simpl in Hsep. apply orb_false_iff in Hsep as [Hc _].
  exact Hc.
Qed.

Lemma dirname_rel d dirs file :
  Forall plain_part (d :: dirs) → plain_part file →
  Path.dirname (Str.join Path.sep_s ((d :: dirs) ++ [file]))
  = Str.join Path.sep_s (d :: dirs).
Proof.
  intros Hdirs [Hsep Hne]. rewrite join_snoc by done.
  pose proof (join_nonempty Path.sep_s (d :: dirs) ltac:(done) Hdirs) as HD.
  assert (Str.starts_with Path.sep (Str.join Path.sep_s (d :: dirs)) = false)
    as Hstart.
  { inversion Hdirs as [|? ? Hd _]; subst. destruct d as [|c d]; [by destruct Hd|].
    apply plain_first_char in Hd. destruct dirs; [exact Hd|].
    rewrite join_cons, append_cons. exact Hd. }
  destruct (Str.join Path.sep_s (d :: dirs)) as [|c0 D'] eqn:HDeq; [done|].
  rewrite append_cons. unfold Path.dirname.
  simpl in Hstart. change (Path.is_sep c0) with (Ascii.eqb c0 Path.sep).
  rewrite Hstart.
  assert (∀ x, mem_char x (Str.rev file) = true → Path.is_sep x = false)
    as Hfile.
  { intros x Hx. apply negb_true_iff.
    apply (not_mem_char _ (Str.rev file)); [|done]. by rewrite mem_char_rev. }
  assert (∀ x, mem_char x (Str.rev file) = true →
               negb (Path.is_sep x) = true) as Hfile'.
  { intros x Hx. apply negb_true_iff. by apply Hfile. }
  assert (Str.nonempty (Str.rev file) = true) as Hrne
    by (by rewrite nonempty_rev).
  rewrite !str_rev_app.
  change (Str.rev Path.sep_s) with (Str.of_char Path.sep).
  rewrite append_assoc.
  change (Str.of_char Path.sep +:+ ?r) with (String Path.sep r).
  rewrite dropWhile_keep by done.
  rewrite dropWhile_app_stop by done.
  destruct (Str.rev D') as [|x r3] eqn:Hr3.
  - apply (f_equal Str.rev) in Hr3. rewrite str_rev_involutive in Hr3.
    by subst D'.
  - by rewrite <- Hr3, str_rev_involutive.
Qed.

Lemma dirname_plain file : plain_part file → Path.dirname file = ".".
Proof.
  intros [Hsep Hne]. destruct file as [|c0 rest]; [done|].
  simpl in Hsep. apply orb_false_iff in Hsep as [Hc Hrest].
  unfold Path.dirname. change (Path.is_sep c0) with (Ascii.eqb c0 Path.sep).
  rewrite Hc.
  assert (∀ x, mem_char x (Str.rev rest) = true → Path.is_sep x = false)
    as Hfile.
  { intros x Hx. apply negb_true_iff.
    apply (not_mem_char _ (Str.rev rest)); [|done]. by rewrite mem_char_rev. }
  destruct (Str.rev rest) as [|x r] eqn:Hr; [done|].
  rewrite dropWhile_stop.
  2:{ apply Hfile. simpl. by rewrite Ascii.eqb_refl. }
  rewrite dropWhile_all; [done|].
  intros y Hy. apply negb_true_iff. by apply Hfile.
Qed.

Lemma ends_with_join_names sep l :
  l ≠ [] → Forall plain_part l →
  Str.ends_with Path.sep (sep +:+ Str.join Path.sep_s l) = false.
Proof.
  intros Hl Hplain. destruct (exists_last Hl) as (init & x & ->).
  apply Forall_app in Hplain as [_ Hx]. inversion Hx as [|? ? [Hsep Hne] _]; subst.
  assert (∃ pre, sep +:+ Str.join Path.sep_s (init ++ [x]) = pre +:+ x) as [pre ->].
  { destruct init as [|i init].
    - exists sep. done.
    - exists (sep +:+ Str.join Path.sep_s (i :: init) +:+ Path.sep_s).
      rewrite join_snoc by done. by rewrite !append_assoc. }
  unfold Str.ends_with. rewrite str_rev_app.
  destruct (Str.rev x) as [|c r] eqn:Hr.
  { apply (f_equal Str.rev) in Hr. rewrite str_rev_involutive in Hr. by subst. }
  rewrite append_cons. simpl.
  assert (mem_char Path.sep (Str.rev x) = false) as H by (by rewrite mem_char_rev).
  rewrite Hr in H. simpl in H. by apply orb_false_iff in H as [H _].
Qed.

Lemma normalizeArray_names b l :
  Forall name_part l → Path.normalizeArray b l = l.
Proof.
  intros Hl. unfold Path.normalizeArray.
  by rewrite norm_fold_names, app_nil_r, List.rev_involutive.
Qed.

Lemma names_no_sep l :
  Forall name_part l → Forall (fun x => mem_char Path.sep x = false) l.
Proof. intros H. eapply Forall_impl; [exact H|]. by intros ? [[? _] _]. Qed.

Lemma normalize_names absolute l :
  l ≠ [] → Forall name_part l →
  Path.normalize (path_of absolute l) = path_of absolute l.
Proof.
  intros Hl Hnames. pose proof (names_plain l Hnames) as Hplain.
  pose proof (join_nonempty Path.sep_s l Hl Hplain) as Hne.
  destruct absolute; unfold path_of.
  - unfold abs_path.
    change (Path.sep_s +:+ Str.join Path.sep_s l)
      with (String Path.sep (Str.join (Str.of_char Path.sep) l)).
    unfold Path.normalize.
    change (Path.isAbsolute (String Path.sep ?x)) with true.
    rewrite split_cons_sep.
    change (Path.normalizeArray (negb true) (EmptyString :: ?l))
      with (Path.normalizeArray false l).
    rewrite split_join by (done || by apply names_no_sep).
    rewrite normalizeArray_names by done.
    change (String Path.sep (Str.join (Str.of_char Path.sep) l))
      with (Path.sep_s +:+ Str.join Path.sep_s l).
    rewrite ends_with_join_names by done.
    by destruct (Str.join Path.sep_s l).
  - unfold Path.normalize.
    assert (Path.isAbsolute (Str.join Path.sep_s l) = false) as Habs.
    { destruct l as [|x l]; [done|]. inversion Hplain as [|? ? Hx _]; subst.
      destruct x as [|c x]; [by destruct Hx|].
      apply plain_first_char in Hx. destruct l; [exact Hx|].
      rewrite join_cons, append_cons. exact Hx. }
    rewrite Habs.
    pose proof (ends_with_join_names EmptyString l Hl Hplain) as Hend.
    change (EmptyString +:+ ?x) with x in Hend. rewrite Hend.
    change Path.sep_s with (Str.of_char Path.sep).
    rewrite split_join by (done || by apply names_no_sep).
    rewrite normalizeArray_names by done.
    change Path.sep_s with (Str.of_char Path.sep) in Hne.
    by destruct (Str.join (Str.of_char Path.sep) l).
Qed.

(** The directory of a file some directories deep. *)
Lemma dirname_named absolute dirs d file :
  Forall name_part (dirs ++ [d; file]) →
  Utils.dirname (path_of absolute (dirs ++ [d; file]))
  = path_of absolute (dirs ++ [d]).
Proof.
  intros Hall. replace (dirs ++ [d; file]) with ((dirs ++ [d]) ++ [file]) in *
    by (by rewrite <- app_assoc).
  apply Forall_app in Hall as [Hdirs Hfile].
  inversion Hfile as [|? ? [Hf _] _]; subst.
  unfold Utils.dirname.
  replace (Path.dirname (path_of absolute ((dirs ++ [d]) ++ [file])))
    with (path_of absolute (dirs ++ [d])).
  - apply normalize_names; [by destruct dirs|done].
  - symmetry. destruct absolute; simpl.
    + apply dirname_abs; [by apply names_plain|done].
    + destruct (dirs ++ [d]) as [|x l] eqn:E; [by destruct dirs|].
      apply dirname_rel; [by apply names_plain|done].
Qed.

Lemma split_path_of absolute l :
  l ≠ [] → Forall name_part l →
  Str.split Path.sep (path_of absolute l)
  = (if absolute then [EmptyString] else []) ++ l.
Proof.
  intros Hl Hnames. destruct absolute; unfold path_of.
  - unfold abs_path.
    change (Path.sep_s +:+ Str.join Path.sep_s l)
      with (String Path.sep (Str.join (Str.of_char Path.sep) l)).
    rewrite split_cons_sep. f_equal.
    apply split_join; [done|by apply names_no_sep].
  - change Path.sep_s with (Str.of_char Path.sep).
    apply split_join; [done|by apply names_no_sep].
Qed.

(** X4: [localDirname] is the name of the directory that holds the
    file; for a file without a directory it is [.], and the empty
    string for a file in the root. *)
Theorem localDirname_named (absolute : bool) (dirs : list string)
    (d file : string) :
  Forall name_part (dirs ++ [d; file]) →
  Utils.localDirname (path_of absolute (dirs ++ [d; file])) = d
  ∧ Utils.localDirname file = "."
  ∧ Utils.localDirname (abs_path [file]) = "".
Proof.
  intros Hall. assert (plain_part file) as Hfile.
  { apply Forall_app in Hall as [_ H]. inversion H as [|? ? _ H']; subst.
    inversion H' as [|? ? [Hf _] _]; by subst. }
  unfold Utils.localDirname. split; [|split].
  - rewrite dirname_named by done.
    rewrite split_path_of.
    + by rewrite app_assoc, last_last.
    + by destruct dirs.
    + replace (dirs ++ [d; file]) with ((dirs ++ [d]) ++ [file]) in Hall
        by (by rewrite <- app_assoc).
      by apply Forall_app in Hall as [H _].
  - unfold Utils.dirname. by rewrite dirname_plain.
  - unfold Utils.dirname.
    change (abs_path [file]) with (abs_path ([] ++ [file])).
    rewrite (dirname_abs [] file) by done. reflexivity.
Qed.

(** X5: [parentDirname] is the name of the directory above the one
    that holds the file; a relative path with a single directory has
    none ([undefined]), nor has a file without a directory, and in a
    directory of the root it is the empty string. *)
Theorem parentDirname_named (absolute : bool) (dirs : list string)
    (p d file : string) :
  Forall name_part (dirs ++ [p; d; file]) →
  Utils.parentDirname (path_of absolute (dirs ++ [p; d; file])) = Some p
  ∧ Utils.parentDirname (Str.join Path.sep_s [d; file]) = None
  ∧ Utils.parentDirname (abs_path [d; file]) = Some EmptyString
  ∧ Utils.parentDirname file = None.
Proof.
  intros Hall.
  assert (Forall name_part (dirs ++ [p]) ∧ name_part d ∧ name_part file)
    as (Hdirs & Hd & Hfile).
  { replace (dirs ++ [p; d; file]) with ((dirs ++ [p]) ++ [d; file]) in Hall
      by (by rewrite <- app_assoc).
    apply Forall_app in Hall as [H1 H2]. split; [done|].
    inversion H2 as [|? ? ? H3]; subst. inversion H3; by subst. }
  unfold Utils.parentDirname. split; [|split; [|split]].
  - replace (dirs ++ [p; d; file]) with ((dirs ++ [p]) ++ [d; file])
      by (by rewrite <- app_assoc).
    rewrite dirname_named.
    2:{ rewrite <- app_assoc. exact Hall. }
    rewrite split_path_of.
    + rewrite <- !app_assoc. simpl. rewrite !rev_app_distr. done.
    + by destruct dirs.
    + apply Forall_app. split; [done|by constructor].
  - change (Str.join Path.sep_s [d; file])
      with (path_of false ([] ++ [d; file])).
    rewrite (dirname_named false [] d file)
      by (repeat (first [apply Forall_nil | apply Forall_cons_2]); done).
    rewrite (split_path_of false ([] ++ [d]))
      by (repeat (first [apply Forall_nil | apply Forall_cons_2]); done).
    done.
  - change (abs_path [d; file]) with (path_of true ([] ++ [d; file])).
    rewrite (dirname_named true [] d file)
      by (repeat (first [apply Forall_nil | apply Forall_cons_2]); done).
    rewrite (split_path_of true ([] ++ [d]))
      by (repeat (first [apply Forall_nil | apply Forall_cons_2]); done).
    done.
  - unfold Utils.dirname. rewrite dirname_plain; [done|]. by destruct Hfile.
Qed.

(** X4, at the path of the function's comment. *)
Lemma localDirname_named_witness :
  Utils.localDirname "foo/bar/baz.txt" = "bar".
Proof.
  apply (localDirname_named false ["foo"] "bar" "baz.txt").
  repeat constructor.
Defined.

(** X5, at an absolute path. *)
Lemma parentDirname_named_witness :
  Utils.parentDirname "/srv/foo/bar/baz.txt" = Some "foo".
Proof.
  apply (parentDirname_named true ["srv"] "foo" "bar" "baz.txt").
  repeat constructor.
Defined.

Lemma dirname_keeps_root p :
  Path.isAbsolute (Path.dirname p) = Path.isAbsolute p.
Proof.
  destruct p as [|c0 rest]; [done|]. unfold Path.dirname.
  change (Path.isAbsolute (String c0 rest)) with (Path.is_sep c0).
  destruct (Str.dropWhile _ (Str.dropWhile _ _)) as [|x [|y r3]];
    by destruct (Path.is_sep c0) eqn:E.
Qed.

Lemma normalize_keeps_root p :
  Path.isAbsolute (Path.normalize p) = Path.isAbsolute p.
Proof.
  destruct p as [|c0 rest]; [done|]. unfold Path.normalize.
  set (p := String c0 rest).
  destruct (Path.isAbsolute p) eqn:Habs.
  - by destruct (Str.join _ _); [|destruct (Str.ends_with _ _)].
  - simpl negb.
    pose proof (normalizeArray_plain true (Str.split Path.sep p)
                  (split_parts_no_sep _ _)) as Hplain.
    destruct (Path.normalizeArray true (Str.split Path.sep p)) as [|x l].
    + simpl. by destruct (Str.ends_with _ _).
    + inversion Hplain as [|? ? Hx _]; subst.
      destruct x as [|c x]; [by destruct Hx|].
      apply plain_first_char in Hx.
      assert (∃ t, Str.join Path.sep_s (String c x :: l) = String c t) as [t ->].
      { destruct l; [by eexists|]. rewrite join_cons, append_cons. by eexists. }
      destruct (Str.ends_with _ _); [rewrite append_cons|]; exact Hx.
Qed.

(** X6: [dirname] normalizes but never resolves: the directory of a
    relative path is relative, that of an absolute path absolute. *)
Theorem dirname_not_resolved (filepath : string) :
  Path.isAbsolute (Utils.dirname filepath) = Path.isAbsolute filepath.
Proof.
  unfold Utils.dirname. by rewrite normalize_keeps_root, dirname_keeps_root.
Qed.

(** ** [commonRoot] *)

(** One step of the reduction on a list of parts. *)
Lemma commonBits_join (L : list string) curr :
  Forall (fun x => mem_char Path.sep x = false) L →
  Utils.commonBits (Str.join Path.sep_s L) curr
  = Str.join Path.sep_s
      (filter (fun bit => existsb (String.eqb bit) (Str.split Path.sep curr) = true) L).
Proof.
  intros HL. unfold Utils.commonBits. destruct L as [|x L].
  - simpl. rewrite filter_cons. by destruct (decide _).
  - change Path.sep_s with (Str.of_char Path.sep). by rewrite split_join.
Qed.

Lemma fold_commonBits (rest : list string) (L : list string) :
  Forall (fun x => mem_char Path.sep x = false) L →
  fold_left Utils.commonBits rest (Str.join Path.sep_s L)
  = Str.join Path.sep_s
      (filter
         (fun bit =>
            forallb (fun q => existsb (String.eqb bit) (Str.split Path.sep q))
              rest = true) L).
Proof.
  revert L. induction rest as [|curr rest IH]; intros L HL; simpl.
  - f_equal. symmetry. apply filter_all. by apply Forall_forall.
  - rewrite commonBits_join by done. rewrite IH.
    2:{ by apply Forall_filter_keep. }
    f_equal. rewrite list_filter_filter. apply list_filter_iff.
    intros x. rewrite andb_true_iff. tauto.
Qed.

Lemma paths_read (files : list Props) (paths : list string) :
  Forall2 (fun file p => Js.getOwn "path" file = Some (VStr p)) files paths →
  map (fun file => Js.getProp (VObj file) "path") files = VStr <$> paths.
Proof.
  induction 1 as [|file p files paths Hp _ IH]; [done|].
  simpl. unfold Js.getProp at 1. simpl. rewrite Hp. simpl. by f_equal.
Qed.

Lemma fold_common_text (rest : list string) (s : string) :
  fold_left
    (fun acc curr =>
       match acc, curr with
       | Ok (VStr prev), VStr curr => Ok (VStr (Utils.commonBits prev curr))
       | Ok _, _ => Throw "TypeError"
       | Throw e, _ => Throw e
       end)
    (VStr <$> rest) (Ok (VStr s))
  = Ok (VStr (fold_left Utils.commonBits rest s)).
Proof. revert s. induction rest as [|c rest IH]; intros s; [done|]. simpl. apply IH. Qed.
(** X7: [commonRoot] throws on no file; otherwise it returns the parts
    of the first path that occur, at any place, among the parts of
    every other path, joined in their order: the first path itself
    when it is the only one. *)
Theorem commonRoot_closed_form (files : list Props) (paths : list string) :
  Forall2 (fun file p => Js.getOwn "path" file = Some (VStr p)) files paths →
  Utils.commonRoot files
  = match paths with
    | [] => Throw "TypeError"
    | p :: others => Ok (VStr (Str.join Path.sep_s (sharedBits p others)))
    end.
Proof.
  intros Hpaths. unfold Utils.commonRoot. rewrite (paths_read _ _ Hpaths).
  destruct paths as [|p others]; [done|]. simpl fmap. cbv iota.
  rewrite fold_common_text. do 2 f_equal.
  rewrite <- (join_split Path.sep p) at 1.
  apply fold_commonBits, split_parts_no_sep.
Qed.

(** X7, at two paths that share parts but no directory. *)
Lemma commonRoot_closed_form_witness :
  Forall2 (fun file p => Js.getOwn "path" file = Some (VStr p))
    [[("path", VStr "a/b/c.html")]; [("contents", VStr "x"); ("path", VStr "c.html/x/a")]]
    ["a/b/c.html"; "c.html/x/a"]
  ∧ Utils.commonRoot
      [[("path", VStr "a/b/c.html")]; [("contents", VStr "x"); ("path", VStr "c.html/x/a")]]
    = Ok (VStr "a/c.html").
Proof.
  assert (Forall2 (fun file p => Js.getOwn "path" file = Some (VStr p))
    [[("path", VStr "a/b/c.html")]; [("contents", VStr "x"); ("path", VStr "c.html/x/a")]]
    ["a/b/c.html"; "c.html/x/a"]) as H by (repeat constructor).
  split; [exact H|].
  etrans; [apply (commonRoot_closed_form _ _ H)|]. vm_compute. reflexivity.
Defined.

Lemma sharedBits_root (root rest0 : list string) (rests : list (list string)) :
  root ≠ [] →
  Forall (fun x => mem_char Path.sep x = false) (root ++ rest0) →
  Forall (Forall (fun x => mem_char Path.sep x = false)) rests →
  Forall (fun bit => Exists (fun segs => bit ∉ root ++ segs) rests) rest0 →
  sharedBits (Str.join Path.sep_s (root ++ rest0))
    ((fun segs => Str.join Path.sep_s (root ++ segs)) <$> rests)
  = root.
Proof.
  intros Hroot Hsep Hrests Hrest0. unfold sharedBits.
  change Path.sep_s with (Str.of_char Path.sep).
  rewrite split_join; [|by destruct root|done].
  apply Forall_app in Hsep as [Hr H0].
  assert (∀ segs, segs ∈ rests →
            Str.split Path.sep (Str.join (Str.of_char Path.sep) (root ++ segs))
            = root ++ segs) as Hsplit.
  { intros segs Hin. apply split_join; [by destruct root|].
    apply Forall_app. split; [done|].
    by apply (proj1 (Forall_forall _ _) Hrests). }
  rewrite filter_app.
  rewrite (filter_all _ root).
  2:{ apply Forall_forall. intros x Hx. apply forallb_forall.
      intros q Hq%list_elem_of_In. apply list_elem_of_fmap in Hq as (segs & -> & Hin).
      rewrite Hsplit by done. apply existsb_eqb_elem, elem_of_app. by left. }
  rewrite (filter_none _ rest0); [by rewrite app_nil_r|].
  apply Forall_forall. intros x Hx Hall.
  apply (proj1 (Forall_forall _ _) Hrest0) in Hx.
  apply Exists_exists in Hx as (segs & Hin & Hnot).
  apply Hnot. rewrite forallb_forall in Hall.
  specialize (Hall (Str.join (Str.of_char Path.sep) (root ++ segs))).
  rewrite Hsplit in Hall by done. apply existsb_eqb_elem, Hall.
  apply list_elem_of_In, list_elem_of_fmap. by exists segs.
Qed.

(** X8: for files below one directory, where each further part of the
    first path is missing from some other path, [commonRoot] is that
    directory, without a separator at its end. *)
Theorem commonRoot_common_dir (files : list Props) (root rest0 : list string)
    (rests : list (list string)) :
  root ≠ [] →
  Forall (fun x => mem_char Path.sep x = false) (root ++ rest0) →
  Forall (Forall (fun x => mem_char Path.sep x = false)) rests →
  Forall (fun bit => Exists (fun segs => bit ∉ root ++ segs) rests) rest0 →
  Forall2
    (fun file segs =>
       Js.getOwn "path" file = Some (VStr (Str.join Path.sep_s (root ++ segs))))
    files (rest0 :: rests) →
  Utils.commonRoot files = Ok (VStr (Str.join Path.sep_s root)).
Proof.
  intros Hroot Hsep Hrests Hrest0 Hfiles.
  unfold Utils.commonRoot.
  rewrite (paths_read files
             ((fun segs => Str.join Path.sep_s (root ++ segs))
                <$> (rest0 :: rests)))
    by (by apply Forall2_fmap_r).
  simpl fmap. cbv iota. rewrite fold_common_text. do 2 f_equal.
  rewrite <- (join_split Path.sep (Str.join Path.sep_s (root ++ rest0))) at 1.
  rewrite fold_commonBits by apply split_parts_no_sep.
  f_equal. by apply sharedBits_root.
Qed.

(** X8, at the paths of the function's comment. *)
Lemma commonRoot_common_dir_witness :
  Utils.commonRoot
    [[("path", VStr "foo/bar/baz/ding/dong.html")];
     [("path", VStr "foo/bar/baz/huff/dumb.txt")];
     [("path", VStr "foo/bar/baz/oleo.html")];
     [("path", VStr "foo/bar/baz/one/two.html")]]
  = Ok (VStr "foo/bar/baz").
Proof.
  apply (commonRoot_common_dir _ ["foo"; "bar"; "baz"] ["ding"; "dong.html"]
           [["huff"; "dumb.txt"]; ["oleo.html"]; ["one"; "two.html"]]).
  - done.
  - repeat constructor.
  - repeat constructor.
  - apply (bool_decide_unpack _). vm_compute. exact I.
  - repeat constructor.
Defined.

(** ** What a key is made of *)

Lemma lastComponent_no_sep p : mem_char Path.sep (Path.lastComponent p) = false.
Proof.
  unfold Path.lastComponent. rewrite mem_char_rev.
  destruct (mem_char _ _) eqn:E; [|done].
  apply mem_char_takeWhile in E. discriminate E.
Qed.

Lemma basename_no_sep p ext : mem_char Path.sep (Path.basename p ext) = false.
Proof.
  unfold Path.basename. pose proof (lastComponent_no_sep p) as H.
  destruct (negb _); [done|]. destruct (String.eqb ext p); [done|].
  destruct (String.eqb ext _); [done|]. destruct (Str.prefix _ _); [|done].
  rewrite mem_char_rev. apply mem_char_drop. by rewrite mem_char_rev.
Qed.

Lemma space_to_dash_sep a : Utils.space_to_dash a = Path.sep → a = Path.sep.
Proof. by_cases a. Qed.

Lemma space_to_dash_space a : Str.is_space (Utils.space_to_dash a) = false.
Proof. by_cases a. Qed.

Lemma mem_char_map_sep s :
  mem_char Path.sep s = false →
  mem_char Path.sep (Str.map Utils.space_to_dash s) = false.
Proof.
  induction s as [|a s IH]; simpl; [done|].
  intros [Ha Hs]%orb_false_iff. rewrite (IH Hs), orb_false_r.
  destruct (Ascii.eqb (Utils.space_to_dash a) Path.sep) eqn:E; [|done].
  apply Ascii.eqb_eq, space_to_dash_sep in E. subst a.
  by rewrite Ascii.eqb_refl in Ha.
Qed.

(** X9: a key holds no separator and, in the version with options, no
    whitespace. *)
Theorem keyname_clean (str : string) (stripNumbers : bool) :
  mem_char Path.sep (Utils.keyname str stripNumbers) = false
  ∧ (∀ c, Str.is_space c = true →
       mem_char c (Utils.keyname str stripNumbers) = false)
  ∧ mem_char Path.sep (Shared.keyname str) = false.
Proof.
  split; [|split].
  - unfold Utils.keyname, Utils.removeLeadingNumbers, Utils.basename.
    pose proof (mem_char_map_sep _ (basename_no_sep str (Path.extname str))).
    destruct stripNumbers; [by apply mem_char_dropWhile|done].
  - intros c Hc.
    assert (mem_char c (Str.map Utils.space_to_dash (Utils.basename str))
            = false) as H.
    { destruct (mem_char c _) eqn:E; [|done].
      apply mem_char_map in E as [a <-].
      by rewrite space_to_dash_space in Hc. }
    unfold Utils.keyname, Utils.removeLeadingNumbers.
    destruct stripNumbers; [by apply mem_char_dropWhile|done].
  - apply basename_no_sep.
Qed.

Lemma dropWhile_head f c s :
  f c = true → Str.starts_with c (Str.dropWhile f s) = false.
Proof.
  intros Hc. induction s as [|a s IH]; [done|]. simpl.
  destruct (f a) eqn:Ha; [exact IH|]. simpl.
  destruct (Ascii.eqb a c) eqn:E; [|done].
  apply Ascii.eqb_eq in E. congruence.
Qed.

(** X10: with [stripNumbers] a key starts with no digit, [.], [-] or
    [|]. *)
Theorem keyname_stripped (str : string) (c : ascii) :
  Utils.leading_class c = true →
  Str.starts_with c (Utils.keyname str true) = false.
Proof.
  intros Hc. unfold Utils.keyname, Utils.removeLeadingNumbers.
  by apply dropWhile_head.
Qed.

(** X10, at a numbered file name. *)
Lemma keyname_stripped_witness :
  Str.starts_with "0" (Utils.keyname "src/01-intro.html" true) = false.
Proof. apply (keyname_stripped "src/01-intro.html" "0"). reflexivity. Defined.

(** X1, at a numbered file name. *)
Lemma basename_of_file_witness :
  Path.extname "src/patterns/01-intro.html" = ".html"
  ∧ Utils.basename "src/patterns/01-intro.html" = "01-intro"
  ∧ Shared.keyname "src/patterns/01-intro.html" = "01-intro".
Proof.
  apply (basename_of_file "src/patterns/" "01-intro" "html");
    try reflexivity.
  - by right.
  - by intros [H _].
Defined.

(** X11: joining the keys of an ID with dots gives the ID back, an ID
    has at least one key, and the keys of dot-free parts joined with
    dots are these parts. *)
Theorem idKeys_round_trip (idString : string) :
  Str.join "." (Shared.idKeys idString) = idString
  ∧ 1 ≤ length (Shared.idKeys idString)
  ∧ ∀ parts, parts ≠ [] → Forall (fun x => mem_char "." x = false) parts →
      Shared.idKeys (Str.join "." parts) = parts.
Proof.
  unfold Shared.idKeys. split; [apply (join_split "."%char)|]. split.
  - pose proof (split_not_nil "."%char idString) as H.
    destruct (Str.split _ _); [done|simpl; lia].
  - intros parts Hne Hparts. by apply (split_join "."%char).
Qed.

(** ** The file [resourcePath] names *)

(** The parts of a path that ends in a file name. *)
Lemma split_file dir comp :
  (dir = EmptyString ∨ Str.ends_with Path.sep dir = true) →
  mem_char Path.sep comp = false →
  ∃ init, Str.split Path.sep (dir +:+ comp) = init ++ [comp].
Proof.
  intros [->|Hdir] Hcomp.
  - exists []. by apply split_no_sep.
  - apply ends_with_sep_split in Hdir as [d ->]. exists (Str.split Path.sep d).
    rewrite append_assoc.
    change (Path.sep_s +:+ comp) with (String Path.sep comp).
    by rewrite split_app, (split_no_sep _ comp).
Qed.

Lemma join_file (init : list string) comp :
  ∃ dir, Str.join Path.sep_s (init ++ [comp]) = dir +:+ comp
         ∧ (dir = EmptyString ∨ Str.ends_with Path.sep dir = true).
Proof.
  destruct init as [|x init].
  - exists EmptyString. by split; [|left].
  - exists (Str.join Path.sep_s (x :: init) +:+ Path.sep_s). split.
    + rewrite join_snoc by done. by rewrite append_assoc.
    + right. by rewrite ends_with_app.
Qed.

Lemma html_name_facts name :
  let comp := name +:+ ".html" in
  String.eqb comp "" = false ∧ String.eqb comp "." = false
  ∧ String.eqb comp ".." = false ∧ Str.nonempty comp = true
  ∧ Str.ends_with Path.sep comp = false.
Proof.
  cbv zeta. assert (5 ≤ String.length (name +:+ ".html")) as Hlen.
  { rewrite length_append. simpl. lia. }
  repeat split.
  - apply String.eqb_neq. intros E. rewrite E in Hlen. simpl in Hlen. lia.
  - apply String.eqb_neq. intros E. rewrite E in Hlen. simpl in Hlen. lia.
  - apply String.eqb_neq. intros E. rewrite E in Hlen. simpl in Hlen. lia.
  - destruct (name +:+ ".html"); [simpl in Hlen; lia|done].
  - by rewrite ends_with_app.
Qed.

Lemma normalize_nonempty p :
  Str.nonempty p = true →
  Path.normalize p
  = let abs := Path.isAbsolute p in
    let trailing := Str.ends_with Path.sep p in
    let body :=
      Str.join Path.sep_s (Path.normalizeArray (negb abs) (Str.split Path.sep p)) in
    match body with
    | EmptyString => if abs then "/" else if trailing then "./" else "."
    | _ =>
        let body' := if trailing then body +:+ "/" else body in
        if abs then "/" +:+ body' else body'
    end.
Proof. by destruct p. Qed.

Lemma normalize_html p : html_file p → html_file (Path.normalize p).
Proof.
  intros (dir & name & -> & Hdir & Hname).
  set (comp := name +:+ ".html").
  destruct (html_name_facts name) as (H0 & H1 & H2 & Hne & Hend).
  fold comp in H0, H1, H2, Hne, Hend.
  assert (mem_char Path.sep comp = false) as Hcomp.
  { unfold comp. by rewrite mem_char_app, Hname. }
  destruct (split_file dir comp Hdir Hcomp) as [init Hsplit].
  rewrite normalize_nonempty by (by apply nonempty_app_r).
  cbv zeta. rewrite Hsplit.
  rewrite normalizeArray_snoc by done.
  rewrite (ends_with_app _ dir comp Hne), Hend.
  destruct (join_file (Path.normalizeArray (negb (Path.isAbsolute (dir +:+ comp))) init) comp)
    as (d & -> & Hd).
  pose proof (nonempty_app_r d comp Hne) as Hbody.
  destruct (d +:+ comp) as [|x y] eqn:Hdc; [done|]. rewrite <- Hdc.
  destruct (Path.isAbsolute (dir +:+ comp)).
  - exists ("/" +:+ d), name. split; [by rewrite append_assoc|]. split; [|done].
    right. destruct Hd as [->|Hd]; [done|].
    rewrite ends_with_app; [done|].
    apply ends_with_sep_split in Hd as [d' ->]. by destruct d'.
  - by exists d, name.
Qed.

Lemma join_html (args : list string) dir name :
  (dir = EmptyString ∨ Str.ends_with Path.sep dir = true) →
  mem_char Path.sep name = false →
  html_file (Path.join (args ++ [dir +:+ name +:+ ".html"])).
Proof.
  intros Hdir Hname. unfold Path.join.
  destruct (html_name_facts name) as (_ & _ & _ & Hne & _).
  assert (Str.nonempty (dir +:+ name +:+ ".html") = true) as Hfile.
  { destruct dir; [exact Hne|done]. }
  rewrite filter_app, (filter_cons_True _ (dir +:+ name +:+ ".html")) by done.
  rewrite filter_nil.
  destruct (filter _ args ++ [dir +:+ name +:+ ".html"]) as [|x l] eqn:E.
  { by destruct (filter _ args). }
  rewrite <- E. apply normalize_html.
  destruct (join_file (filter (fun s => Str.nonempty s = true) args)
              (dir +:+ name +:+ ".html")) as (d & -> & Hd).
  exists (d +:+ dir), name. split; [by rewrite append_assoc|]. split; [|done].
  destruct Hdir as [->|Hdir].
  - rewrite append_empty_r. exact Hd.
  - right. rewrite ends_with_app; [done|].
    apply ends_with_sep_split in Hdir as [d' ->]. by destruct d'.
Qed.

(** A text cut at its last separator. *)
Lemma cut_at_last_sep s :
  ∃ dir name, s = dir +:+ name
    ∧ (dir = EmptyString ∨ Str.ends_with Path.sep dir = true)
    ∧ mem_char Path.sep name = false.
Proof.
  pose proof (join_split Path.sep s) as Hs.
  pose proof (split_parts_no_sep Path.sep s) as Hparts.
  pose proof (split_not_nil Path.sep s) as Hne.
  destruct (exists_last Hne) as (init & name & Heq).
  rewrite Heq in Hs, Hparts.
  destruct (join_file init name) as (dir & Hjoin & Hdir).
  change (Str.of_char Path.sep) with Path.sep_s in Hs.
  exists dir, name. split; [by rewrite <- Hjoin|]. split; [done|].
  apply Forall_app in Hparts as [_ H]. by inversion H.
Qed.

(** X12: whatever the ID and the destination, [resourcePath] names a
    file that ends in [.html]. *)
Theorem resourcePath_html (resourceId dest : string) :
  html_file (Shared.resourcePath resourceId dest).
Proof.
  unfold Shared.resourcePath. apply normalize_html.
  set (subPath := if 1 <? length (Shared.idKeys resourceId)
                  then tail (Shared.idKeys resourceId)
                  else Shared.idKeys resourceId).
  destruct (cut_at_last_sep (Shared.pop_text subPath))
    as (dir & name & -> & Hdir & Hname).
  rewrite append_assoc.
  by apply (join_html [dest; Str.join Path.sep_s (removelast subPath)]).
Qed.

(** ** [titleCase] *)

(** A character once lowered and cleared of dashes. *)
Lemma settled_plain c :
  Shared.dash_to_space (Str.lower (Shared.dash_to_space (Str.lower c)))
  = Shared.dash_to_space (Str.lower c).
Proof. by_cases c. Qed.

Lemma settled_upper c :
  Shared.dash_to_space
    (Str.lower (Str.upper_word (Shared.dash_to_space (Str.lower c))))
  = Shared.dash_to_space (Str.lower c).
Proof. by_cases c. Qed.

Lemma settled_no_dash c x :
  (x = "-"%char ∨ x = "_"%char) →
  Ascii.eqb (Shared.dash_to_space (Str.lower c)) x = false
  ∧ Ascii.eqb (Str.upper_word (Shared.dash_to_space (Str.lower c))) x = false.
Proof. intros [-> | ->]; by_cases c. Qed.

Lemma capitalize_undone inword s :
  Str.map Shared.dash_to_space
    (Str.map Str.lower
       (Shared.capitalize inword
          (Str.map Shared.dash_to_space (Str.map Str.lower s))))
  = Str.map Shared.dash_to_space (Str.map Str.lower s).
Proof.
  revert inword. induction s as [|c s IH]; intros inword; [done|].
  cbn [Str.map Shared.capitalize].
  destruct inword; [|destruct (Str.is_word _)]; cbn [Str.map];
    by rewrite IH, ?settled_plain, ?settled_upper.
Qed.

(** X13: [titleCase] is idempotent. *)
Theorem titleCase_idempotent (str : string) :
  Shared.titleCase (Shared.titleCase str) = Shared.titleCase str.
Proof.
  unfold Shared.titleCase. f_equal. apply capitalize_undone.
Qed.

Lemma capitalize_no_dash x inword s :
  (x = "-"%char ∨ x = "_"%char) →
  mem_char x
    (Shared.capitalize inword
       (Str.map Shared.dash_to_space (Str.map Str.lower s))) = false.
Proof.
  intros Hx. revert inword. induction s as [|c s IH]; intros inword; [done|].
  destruct (settled_no_dash c x Hx) as [Hplain Hupper].
  cbn [Str.map Shared.capitalize].
  destruct inword; [|destruct (Str.is_word _)]; cbn [mem_char];
    by rewrite IH, ?Hplain, ?Hupper.
Qed.

(** X14: a title holds neither [-] nor [_]. *)
Theorem titleCase_no_dash (str : string) :
  mem_char "-" (Shared.titleCase str) = false
  ∧ mem_char "_" (Shared.titleCase str) = false.
Proof.
  unfold Shared.titleCase. split; apply capitalize_no_dash; auto.
Qed.

Lemma lower_alnum_facts c :
  lower_alnum c = true →
  Str.lower c = c ∧ Shared.dash_to_space c = c ∧ Str.is_word c = true
  ∧ Str.is_space c = false.
Proof. by_cases c. Qed.

Lemma map_plain w :
  all_chars lower_alnum w = true →
  Str.map Shared.dash_to_space (Str.map Str.lower w) = w.
Proof.
  induction w as [|c w IH]; [done|]. simpl.
  intros [Hc Hw]%andb_true_iff.
  destruct (lower_alnum_facts c Hc) as (-> & -> & _). by rewrite IH.
Qed.

Lemma capitalize_inword w rest :
  all_chars lower_alnum w = true →
  Shared.capitalize true (w +:+ rest) = w +:+ Shared.capitalize true rest.
Proof.
  induction w as [|c w IH]; [done|]. simpl.
  intros [Hc Hw]%andb_true_iff.
  destruct (lower_alnum_facts c Hc) as (_ & _ & _ & ->). simpl.
  by rewrite IH.
Qed.

Lemma capitalize_word w rest :
  plain_word w →
  Shared.capitalize false (w +:+ rest)
  = capitalized w +:+ Shared.capitalize true rest.
Proof.
  intros [Hne Hw]. destruct w as [|c w]; [done|]. simpl in Hw.
  apply andb_true_iff in Hw as [Hc Hw].
  destruct (lower_alnum_facts c Hc) as (_ & _ & Hword & Hspace).
  rewrite append_cons. cbn [Shared.capitalize]. rewrite Hword.
  by rewrite capitalize_inword.
Qed.

Lemma capitalize_words words :
  Forall plain_word words →
  Shared.capitalize false (Str.join " " words)
  = Str.join " " (capitalized <$> words).
Proof.
  induction 1 as [|w words Hw Hwords IH]; [done|].
  destruct words as [|w' words].
  - simpl. rewrite <- (append_empty_r w) at 1.
    rewrite capitalize_word by done. simpl. by rewrite append_empty_r.
  - rewrite join_cons. rewrite capitalize_word by done.
    change (capitalized <$> w :: w' :: words)
      with (capitalized w :: (capitalized <$> w' :: words)).
    destruct (capitalized <$> w' :: words) as [|x xs] eqn:E; [done|].
    rewrite join_cons. rewrite <- IH. done.
Qed.

Lemma map_join_dash words :
  Forall plain_word words →
  Str.map Shared.dash_to_space (Str.map Str.lower (Str.join "-" words))
  = Str.join " " words.
Proof.
  induction 1 as [|w words [_ Hw] Hwords IH]; [done|].
  destruct words as [|w' words].
  - simpl. by apply map_plain.
  - rewrite !join_cons, !str_map_app, IH, map_plain by done.
    by change (Str.map Shared.dash_to_space (Str.map Str.lower "-")) with " ".
Qed.

(** X15: words of lower-case letters and digits joined by dashes come
    out with their first letter in upper case and separated by spaces. *)
Theorem titleCase_words (words : list string) :
  Forall plain_word words →
  Shared.titleCase (Str.join "-" words) = Str.join " " (capitalized <$> words).
Proof.
  intros Hwords. unfold Shared.titleCase.
  rewrite map_join_dash by done. by apply capitalize_words.
Qed.

(** X15, at the name of a pattern. *)
Lemma titleCase_words_witness :
  Shared.titleCase "big-button-2x" = "Big Button 2x".
Proof.
  apply (titleCase_words ["big"; "button"; "2x"]).
  repeat constructor.
Defined.

(** ** [matchParser] and [readFiles] *)

Section ReaderFacts.

Variable regex_test : string -> string -> bool.

Lemma firstMatch_none filepath parsers :
  no_match regex_test filepath parsers →
  Utils.firstMatch regex_test filepath parsers = None.
Proof.
  induction 1 as [|[k r] rest Hr _ IH]; simpl; [done|].
  simpl in Hr. by rewrite Hr.
Qed.

Lemma firstMatch_first filepath pre k r post :
  no_match regex_test filepath pre →
  Utils.rule_matches regex_test filepath r = true →
  Utils.firstMatch regex_test filepath (pre ++ (k, r) :: post)
  = Some (Utils.parseFn r).
Proof.
  intros Hpre Hr. induction Hpre as [|[k' r'] rest Hr' _ IH]; simpl.
  - by rewrite Hr.
  - simpl in Hr'. by rewrite Hr'.
Qed.

(** C9: the rules are tried in mapping order and the first one whose
    pattern tests true on the path gives its [parseFn]; when none
    does, the [default] rule gives its [parseFn] if there is one, and
    otherwise the result wraps the text as [{contents: text}]. *)
Theorem matchParser_spec (filepath : string)
    (pre post : list (string * Utils.Rule)) (k : string) (r : Utils.Rule) :
  no_match regex_test filepath pre →
  (Utils.rule_matches regex_test filepath r = true →
   Utils.matchParser regex_test filepath (pre ++ (k, r) :: post)
   = Utils.parseFn r)
  ∧ (∀ d, Js.getOwn "default" pre = Some d →
       Utils.matchParser regex_test filepath pre = Utils.parseFn d)
  ∧ (Js.getOwn "default" pre = None →
     ∀ text p, Utils.matchParser regex_test filepath pre text p
               = Utils.PData [("contents", VStr text)]).
Proof.
  intros Hpre. unfold Utils.matchParser. repeat split.
  - intros Hr. by rewrite firstMatch_first.
  - intros d Hd. by rewrite firstMatch_none, Hd.
  - intros Hd text p. by rewrite firstMatch_none, Hd.
Qed.

(** A rule without a pattern, or with the empty one, is never tested. *)
Lemma rule_without_pattern filepath r :
  Utils.has_pattern r = false →
  Utils.rule_matches regex_test filepath r = false.
Proof.
  unfold Utils.has_pattern, Utils.rule_matches.
  destruct (Utils.pattern r); [|done]. by intros ->.
Qed.

Variable globby : list string -> Props -> list string.

Variable readFile : string -> string -> option string.

Lemma getOwn_setProp_eq {A} k (x : A) props :
  Js.getOwn k (Js.setProp k x props) = Some x.
Proof.
  induction props as [|[k' y] rest IH]; simpl.
  - by rewrite String.eqb_refl.
  - destruct (String.eqb k' k) eqn:E; simpl; by rewrite E.
Qed.

Lemma getOwn_setProp_ne {A} k k' (x : A) props :
  k ≠ k' → Js.getOwn k' (Js.setProp k x props) = Js.getOwn k' props.
Proof.
  intros Hne. induction props as [|[k0 y] rest IH]; simpl.
  - by apply String.eqb_neq in Hne as ->.
  - destruct (String.eqb k0 k) eqn:E; simpl.
    + apply String.eqb_eq in E as ->.
      by apply String.eqb_neq in Hne as ->.
    + by rewrite IH.
Qed.

(** C10: when every read succeeds [readFiles] yields one record per
    matched file, in order; the record is the parser's output, a
    string wrapped as [{contents: s}], with [path] set to the path of
    the file, also when the parser's object has a [path] of its own. *)
Theorem readFiles_records (glob : list string)
    (parsers : list (string * Utils.Rule)) (encoding : string)
    (globOpts : Props) :
  Forall (fun filepath => is_Some (readFile filepath encoding))
    (Utils.getFiles globby glob globOpts) →
  ∃ records,
    Utils.readFiles regex_test globby readFile glob parsers encoding globOpts
    = Some records
    ∧ Forall2
        (fun filepath aFile =>
           Js.getOwn "path" aFile = Some (VStr filepath)
           ∧ ∃ text, readFile filepath encoding = Some text
                     ∧ record_of regex_test parsers filepath text aFile)
        (Utils.getFiles globby glob globOpts) records.
Proof.
  unfold Utils.readFiles. setoid_rewrite mapM_Some.
  induction 1 as [|filepath paths [text Ht] _ (records & Hrec & IH)].
  - exists []. by split; constructor.
  - exists (default [] (Utils.readOne regex_test readFile parsers encoding filepath)
            :: records).
    unfold Utils.readOne, record_of. rewrite Ht. simpl. split.
    { constructor; [by rewrite Ht|exact Hrec]. }
    constructor; [|done].
    split; [apply getOwn_setProp_eq|]. exists text. split; [done|].
    destruct (Utils.matchParser _ _ _ _ _) as [s|props]; [reflexivity|].
    split; [done|]. intros k Hk. by apply getOwn_setProp_ne.
Qed.

(** X16: a failed read rejects the whole batch. *)
Lemma readFiles_rejected glob parsers encoding globOpts filepath :
  filepath ∈ Utils.getFiles globby glob globOpts →
  readFile filepath encoding = None →
  Utils.readFiles regex_test globby readFile glob parsers encoding globOpts
  = None.
Proof.
  intros Hin Hnone. unfold Utils.readFiles. apply mapM_None.
  apply Exists_exists. exists filepath. split; [done|].
  unfold Utils.readOne. by rewrite Hnone.
Qed.

End ReaderFacts.

(** The rule for [.html] is the third in the mapping and the first to
    match. *)
Lemma matchParser_spec_witness :
  no_match literal_test "src/a.html"
    [("markdown", markdown_rule); ("default", default_rule)]
  ∧ Utils.matchParser literal_test "src/a.html" example_parsers
    = Utils.parseFn html_rule.
Proof.
  assert (no_match literal_test "src/a.html"
            [("markdown", markdown_rule); ("default", default_rule)]) as H
    by (repeat constructor).
  split; [exact H|].
  apply (matchParser_spec literal_test "src/a.html"
           [("markdown", markdown_rule); ("default", default_rule)] []
           "html" html_rule H).
  reflexivity.
Defined.

(** Two files; the parser of the first returns an object with a
    [path] of its own. *)
Lemma readFiles_records_witness :
  Forall (fun filepath => is_Some (example_disk filepath "utf-8"))
    (Utils.getFiles example_glob ["src/*"] [])
  ∧ Utils.readFiles literal_test example_glob example_disk ["src/*"]
      example_parsers "utf-8" [] = Some example_files
  ∧ Forall2 (fun filepath aFile => Js.getOwn "path" aFile = Some (VStr filepath))
      ["src/a.html"; "src/b.md"] example_files.
Proof.
  assert (Forall (fun filepath => is_Some (example_disk filepath "utf-8"))
            (Utils.getFiles example_glob ["src/*"] [])) as H.
  { repeat constructor; by eexists. }
  assert (Utils.readFiles literal_test example_glob example_disk ["src/*"]
            example_parsers "utf-8" [] = Some example_files) as E
    by (vm_compute; reflexivity).
  split; [exact H|]. split; [exact E|].
  destruct (readFiles_records literal_test example_glob example_disk
              ["src/*"] example_parsers "utf-8" [] H) as (records & Heq & HF).
  rewrite E in Heq. injection Heq as <-.
  eapply Forall2_impl; [exact HF|]. by intros filepath aFile [Hpath _].
Defined.

(** X16, on a disk where the second file cannot be read. *)
Lemma readFiles_rejected_witness :
  Utils.readFiles literal_test example_glob missing_disk ["src/*"]
    example_parsers "utf-8" [] = None.
Proof.
  apply (readFiles_rejected literal_test example_glob missing_disk ["src/*"]
           example_parsers "utf-8" [] "src/b.md").
  - apply (bool_decide_unpack _). vm_compute. exact I.
  - reflexivity.
Defined.

(** *** Files without a parser *)

Section PassThrough.

Variable regex_test : string -> string -> bool.
Variable globby : list string -> Props -> list string.
Variable readFile : string -> string -> option string.

Lemma readOne_unparsed parsers encoding filepath text :
  no_match regex_test filepath parsers →
  Js.getOwn "default" parsers = None →
  readFile filepath encoding = Some text →
  Utils.readOne regex_test readFile parsers encoding filepath
  = Some [("contents", VStr text); ("path", VStr filepath)].
Proof.
  intros Hno Hdef Hread. unfold Utils.readOne. rewrite Hread. simpl.
  unfold Utils.matchParser. by rewrite firstMatch_none, Hdef.
Qed.

(** X17: files that no rule matches, read with parsers that have no
    [default] rule, come out as their text and their path. *)
Theorem readFiles_unparsed (glob : list string)
    (parsers : list (string * Utils.Rule)) (encoding : string)
    (globOpts : Props) (texts : list string) :
  Js.getOwn "default" parsers = None →
  Forall (fun filepath => no_match regex_test filepath parsers)
    (Utils.getFiles globby glob globOpts) →
  Forall2 (fun filepath text => readFile filepath encoding = Some text)
    (Utils.getFiles globby glob globOpts) texts →
  Utils.readFiles regex_test globby readFile glob parsers encoding globOpts
  = Some (zip_with
            (fun filepath text =>
               [("contents", VStr text); ("path", VStr filepath)])
            (Utils.getFiles globby glob globOpts) texts).
Proof.
  intros Hdef Hno Hread. unfold Utils.readFiles. apply mapM_Some.
  induction Hread as [|filepath text paths texts Ht _ IH]; [constructor|].
  inversion Hno as [|? ? Hp Hps]; subst. simpl.
  constructor; [by apply readOne_unparsed|by apply IH].
Qed.

End PassThrough.

(** X17, with a rule for another kind of file. *)
Lemma readFiles_unparsed_witness :
  Utils.readFiles literal_test example_glob example_disk ["src/*"]
    [("yaml", yaml_rule)] "utf-8" []
  = Some [[("contents", VStr "<p>a</p>"); ("path", VStr "src/a.html")];
          [("contents", VStr "# b"); ("path", VStr "src/b.md")]].
Proof.
  apply (readFiles_unparsed literal_test example_glob example_disk ["src/*"]
           [("yaml", yaml_rule)] "utf-8" [] ["<p>a</p>"; "# b"]).
  - reflexivity.
  - repeat constructor.
  - repeat constructor.
Defined.

(** ** [readFilesKeyed] *)

Section KeyedFacts.

Variable regex_test : string -> string -> bool.
Variable globby : list string -> Props -> list string.
Variable readFile : string -> string -> option string.
Variable keyFn : string -> string.



End KeyedFacts.


(** ** [getDirs] and its options *)

Lemma setProp_fresh {A} k (x : A) props :
  k ∉ props.*1 → Js.setProp k x props = props ++ [(k, x)].
Proof.
  induction props as [|[k' y] rest IH]; simpl; [done|].
  intros Hk. apply not_elem_of_cons in Hk as [Hne Hk].
  destruct (String.eqb k' k) eqn:E.
  - apply String.eqb_eq in E. congruence.
  - by rewrite IH.
Qed.

Lemma setProp_keys {A} k (x : A) props :
  ((Js.setProp k x props).*1 = props.*1)
  ∨ ((k ∉ props.*1) ∧ (Js.setProp k x props).*1 = props.*1 ++ [k]).
Proof.
  induction props as [|[k' y] rest IH].
  - right. split; [apply not_elem_of_nil|done].
  - cbn [Js.setProp]. destruct (String.eqb k' k) eqn:E; [by left|].
    apply String.eqb_neq in E. rewrite !fmap_cons.
    destruct IH as [IH|[Hk IH]]; rewrite IH; [by left|right].
    split; [|done]. apply not_elem_of_cons. by split.
Qed.

Lemma setProp_NoDup {A} k (x : A) props :
  NoDup props.*1 → NoDup (Js.setProp k x props).*1.
Proof.
  intros Hnd. destruct (setProp_keys k x props) as [->|[Hk ->]]; [done|].
  apply NoDup_app. split; [done|]. split; [|apply NoDup_singleton].
  intros y Hy ->%list_elem_of_singleton. done.
Qed.

Lemma assign_NoDup {A} (target source : list (string * A)) :
  NoDup target.*1 → NoDup (Js.assign target source).*1.
Proof.
  unfold Js.assign. revert target.
  induction source as [|[k x] source IH]; intros target Hnd; [done|].
  simpl. apply IH. by apply setProp_NoDup.
Qed.

Lemma assign_head {A} k (y : A) rest source :
  ∃ v tail, Js.assign ((k, y) :: rest) source = (k, v) :: tail.
Proof.
  unfold Js.assign. revert y rest.
  induction source as [|[k' x] source IH]; intros y rest; [by eexists _, _|].
  simpl. destruct (String.eqb k k'); apply IH.
Qed.

Lemma assign_fresh {A} (acc l : list (string * A)) :
  NoDup (acc.*1 ++ l.*1) → Js.assign acc l = acc ++ l.
Proof.
  unfold Js.assign. revert acc.
  induction l as [|[k x] l IH]; intros acc Hnd; simpl.
  - by rewrite app_nil_r.
  - apply NoDup_app in Hnd as (Hacc & Hdisj & Hl).
    rewrite setProp_fresh.
    2:{ intros Hin. apply (Hdisj k Hin). simpl. by apply elem_of_cons; left. }
    rewrite IH; [by rewrite <- app_assoc|].
    rewrite fmap_app. simpl. rewrite <- app_assoc. simpl.
    apply NoDup_app. split; [done|]. split; [|done].
    intros y Hy. by apply Hdisj.
Qed.

(** A default that the options already decide has no effect. *)
Lemma assign_default_twice k (x y : JsVal) (source : Props) :
  Js.assign [(k, x)] (Js.assign [(k, y)] source) = Js.assign [(k, y)] source.
Proof.
  pose proof (assign_NoDup [(k, y)] source) as Hnd.
  destruct (assign_head k y [] source) as (v & tail & Heq).
  rewrite Heq in *. specialize (Hnd (NoDup_singleton _)).
  unfold Js.assign at 1. simpl. rewrite String.eqb_refl.
  apply (assign_fresh [(k, v)] tail). exact Hnd.
Qed.

Lemma getOwn_None_keys {A} k (props : list (string * A)) :
  Js.getOwn k props = None → k ∉ props.*1.
Proof.
  induction props as [|[k' y] rest IH]; simpl; [intros _; apply not_elem_of_nil|].
  destruct (String.eqb k' k) eqn:E; [done|]. intros H.
  apply String.eqb_neq in E. apply not_elem_of_cons. split; [done|by apply IH].
Qed.

Lemma getOwn_assign_absent {A} k (target source : list (string * A)) :
  Js.getOwn k source = None →
  Js.getOwn k (Js.assign target source) = Js.getOwn k target.
Proof.
  unfold Js.assign. revert target.
  induction source as [|[k' x] source IH]; intros target; [done|].
  simpl. destruct (String.eqb k' k) eqn:E; [done|]. intros H.
  rewrite IH by done. apply getOwn_setProp_ne. by apply String.eqb_neq.
Qed.

Section DirFacts.

Variable globby : list string -> Props -> list string.

(** X19: [getDirs] asks [globby] for the entries one level below the
    directory of each glob, with the caller's options laid over
    [nodir: false]; the default [nodir: true] of [getFiles] never
    applies. *)
Theorem getDirs_options (glob : string + list string) (options : Props) :
  Utils.getDirs globby glob options
  = globby
      ((fun dirEntry => Path.dirname dirEntry +:+ "/*/")
         <$> match glob with inl g => [g] | inr entries => entries end)
      (Js.assign [("nodir", VBool false)] options)
  ∧ (Js.getOwn "nodir" options = None →
     Js.getOwn "nodir" (Js.assign [("nodir", VBool false)] options)
     = Some (VBool false)).
Proof.
  split.
  - unfold Utils.getDirs, Utils.getFiles. by rewrite assign_default_twice.
  - intros Hnone. by rewrite getOwn_assign_absent.
Qed.

End DirFacts.

(** ** Property lists and paths *)




Lemma getOwn_key_Some {A} k (props : list (string * A)) :
  k ∈ props.*1 → ∃ x, Js.getOwn k props = Some x.
Proof.
  induction props as [|[k' y] rest IH]; simpl; [by intros ?%elem_of_nil|].
  destruct (String.eqb k' k) eqn:E; [by eexists|].
  intros [->|Hin]%elem_of_cons; [|by apply IH].
  by rewrite String.eqb_refl in E.
Qed.

Lemma str_props_values i s k x :
  Js.getOwn k (Js.str_props i s) = Some x → ∃ c, x = VStr (Str.of_char c).
Proof.
  revert i. induction s as [|c s IH]; intros i; simpl; [done|].
  destruct (String.eqb _ k); [|by apply IH].
  intros [= <-]. by exists c.
Qed.

Lemma getPath_app p q v :
  Js.getPath (p ++ q) v = Js.getPath q (Js.getPath p v).
Proof. revert v. induction p as [|k p IH]; intros v; simpl; [done|]. apply IH. Qed.






(** ** The frame of the render pass *)

Lemma erase_obj props :
  erase (VObj props) = VObj (map (fun kv => (kv.1, erase_entry kv.1 kv.2)) props).
Proof.
  simpl. f_equal. apply map_ext. by intros [k x].
Qed.

Lemma filter_setProp_contents (x : JsVal) cp :
  filter (fun kv : string * JsVal => kv.1 ≠ "contents") (Js.setProp "contents" x cp)
  = filter (fun kv => kv.1 ≠ "contents") cp.
Proof.
  induction cp as [|[k y] rest IH]; simpl.
  - by rewrite filter_cons_False by (simpl; auto).
  - destruct (String.eqb k "contents") eqn:E.
    + apply String.eqb_eq in E as ->.
      by rewrite !filter_cons_False by (simpl; auto).
    + apply String.eqb_neq in E.
      by rewrite !filter_cons_True, IH by done.
Qed.

Lemma drop_set_contents s c :
  drop_contents (Render.set_contents s c) = drop_contents c.
Proof. destruct c; simpl; try done. by rewrite filter_setProp_contents. Qed.

Lemma map_erase_alterProp k f props :
  (∀ y, erase_entry k (f y) = erase_entry k y) →
  map (fun kv => (kv.1, erase_entry kv.1 kv.2)) (Js.alterProp k f props)
  = map (fun kv => (kv.1, erase_entry kv.1 kv.2)) props.
Proof.
  intros Hf. induction props as [|[k' y] rest IH]; simpl; [done|].
  destruct (String.eqb k' k) eqn:E; simpl.
  - apply String.eqb_eq in E as ->. by rewrite Hf.
  - by rewrite IH.
Qed.

Lemma erase_updPath s path t :
  "collection" ∉ path →
  erase (Js.updPath (path ++ ["collection"]) (Render.set_contents s) t)
  = erase t.
Proof.
  revert t. induction path as [|k path IH]; intros t Hnot.
  - destruct t as [| | | | |props]; try done.
    cbn [app Js.updPath]. rewrite !erase_obj, map_erase_alterProp; [done|].
    intros y. unfold erase_entry. simpl. apply drop_set_contents.
  - destruct t as [| | | | |props]; try done.
    cbn [app Js.updPath]. rewrite !erase_obj, map_erase_alterProp; [done|].
    intros y. unfold erase_entry.
    assert (k ≠ "collection") as Hk.
    { intros ->. apply Hnot. by apply elem_of_cons; left. }
    apply String.eqb_neq in Hk as ->. apply IH.
    intros ?. apply Hnot. by apply elem_of_cons; right.
Qed.

Lemma getOwn_map_erase k props :
  Js.getOwn k (map (fun kv => (kv.1, erase_entry kv.1 kv.2)) props)
  = erase_entry k <$> Js.getOwn k props.
Proof.
  induction props as [|[k' y] rest IH]; simpl; [done|].
  destruct (String.eqb k' k) eqn:E; [|done].
  by apply String.eqb_eq in E as ->.
Qed.

Lemma getProp_erase v k :
  Js.getProp (erase v) k = erase_entry k (Js.getProp v k).
Proof.
  destruct v as [| | | |s|props].
  1-4: unfold erase_entry; by destruct (String.eqb k "collection").
  - unfold Js.getProp. simpl.
    destruct (Js.getOwn k (Js.str_props 0 s)) as [x|] eqn:E; simpl.
    + apply str_props_values in E as [c ->].
      unfold erase_entry. by destruct (String.eqb k "collection").
    + unfold erase_entry. by destruct (String.eqb k "collection").
  - rewrite erase_obj. unfold Js.getProp. simpl. rewrite getOwn_map_erase.
    destruct (Js.getOwn k props); simpl; [done|].
    unfold erase_entry. by destruct (String.eqb k "collection").
Qed.

Lemma getPath_erase p v :
  "collection" ∉ p → Js.getPath p (erase v) = erase (Js.getPath p v).
Proof.
  revert v. induction p as [|k p IH]; intros v Hnot; simpl; [done|].
  rewrite getProp_erase. unfold erase_entry.
  assert (k ≠ "collection") as Hk.
  { intros ->. apply Hnot. by apply elem_of_cons; left. }
  apply String.eqb_neq in Hk as ->. apply IH.
  intros ?. apply Hnot. by apply elem_of_cons; right.
Qed.

Lemma forin_keys_erase v : Js.forin_keys (erase v) = Js.forin_keys v.
Proof.
  destruct v as [| | | |s|props]; try done.
  rewrite erase_obj. unfold Js.forin_keys. simpl.
  rewrite <- list_fmap_compose. by apply list_fmap_ext.
Qed.




Lemma setProp_same {A} k (x : A) props :
  Js.getOwn k props = Some x → Js.setProp k x props = props.
Proof.
  induction props as [|[k' y] rest IH]; simpl; [done|].
  destruct (String.eqb k' k) eqn:E.
  - by intros [= ->].
  - intros H. by rewrite IH.
Qed.

Lemma deepObj_resolved ks obj :
  resolves ks obj = true → Utils.deepObj ks obj = Ok (Js.getPath ks obj, obj).
Proof.
  revert obj. induction ks as [|k ks IH]; intros obj; simpl; [done|].
  destruct obj as [| | | | |props]; try done.
  unfold Js.getProp. simpl.
  destruct (Js.getOwn k props) as [child|] eqn:E; [|done]. simpl.
  intros [Ht Hr]%andb_true_iff. rewrite Ht, (IH _ Hr).
  by rewrite setProp_same.
Qed.

(** *** What [deepObj] does to the object *)

Lemma falsy_no_entries v : Js.truthy v = false → Js.entries v = [].
Proof. destruct v as [| |b|z|s|props]; try done. by destruct s. Qed.

Lemma getPath_undef q : q ≠ [] → Js.getPath q VUndef = VUndef.
Proof.
  induction q as [|k [|k' q] IH]; [done|done|]. intros _.
  change (Js.getPath (k :: k' :: q) VUndef) with (Js.getPath (k' :: q) VUndef).
  by apply IH.
Qed.

Lemma getPath_no_entries q v :
  q ≠ [] → Js.entries v = [] → Js.getPath q v = VUndef.
Proof.
  destruct q as [|k q]; [done|]. intros _ Hv. simpl.
  unfold Js.getProp. rewrite Hv. simpl.
  destruct q as [|k' q]; [done|]. by apply getPath_undef.
Qed.

Lemma truthy_below q v :
  Js.truthy (Js.getPath q v) = true → Js.truthy v = true.
Proof.
  intros Hq. destruct (Js.truthy v) eqn:Hv; [done|].
  destruct q as [|k q]; [simpl in Hq; congruence|].
  rewrite getPath_no_entries in Hq; [done|done|by apply falsy_no_entries].
Qed.

Lemma deepObj_object ks obj ref obj' :
  Utils.deepObj ks obj = Ok (ref, obj') → Js.truthy obj = true →
  Js.truthy obj' = true.
Proof.
  destruct ks as [|k ks]; simpl.
  - by intros [= _ <-].
  - destruct obj as [| | | | |props]; try done.
    destruct (Utils.deepObj _ _) as [[r c]|e]; [|done]. by intros [= _ <-].
Qed.

Lemma deepObj_leaves_resolved ks obj ref obj' :
  Utils.deepObj ks obj = Ok (ref, obj') →
  resolves ks obj' = true ∧ Js.getPath ks obj' = ref.
Proof.
  revert obj ref obj'. induction ks as [|k ks IH]; intros obj ref obj'.
  - simpl. by intros [= <- <-].
  - simpl. destruct obj as [| | | | |props]; try done.
    set (old := Js.getProp (VObj props) k).
    set (child := if Js.truthy old then old else VObj []).
    destruct (Utils.deepObj ks child) as [[r c]|e] eqn:Hrec; [|done].
    intros [= <- <-].
    assert (Js.truthy child = true) as Hchild.
    { unfold child. by destruct (Js.truthy old) eqn:E. }
    destruct (IH _ _ _ Hrec) as (Hres & Hget).
    unfold Js.getProp. simpl. rewrite getOwn_setProp_eq. simpl.
    split; [|done].
    rewrite Hres, andb_true_r. by apply (deepObj_object ks child r).
Qed.

Lemma deepObj_ref_truthy ks obj ref obj' :
  Utils.deepObj ks obj = Ok (ref, obj') → Js.truthy obj = true →
  Js.truthy ref = true.
Proof.
  revert obj ref obj'. induction ks as [|k ks IH]; intros obj ref obj'.
  - simpl. by intros [= <- _].
  - simpl. destruct obj as [| | | | |props]; try done.
    set (old := Js.getProp (VObj props) k).
    set (child := if Js.truthy old then old else VObj []).
    destruct (Utils.deepObj ks child) as [[r c]|e] eqn:Hrec; [|done].
    intros [= <- _] _. apply (IH _ _ _ Hrec).
    unfold child. by destruct (Js.truthy old) eqn:E.
Qed.

(** X20: what [deepObj] returns is what its path reaches in the
    object it leaves behind; for a path that is not empty this is
    never a falsy value. *)
Theorem deepObj_reaches (ks : list string) (obj ref obj' : JsVal) :
  Utils.deepObj ks obj = Ok (ref, obj') →
  Js.getPath ks obj' = ref ∧ (ks ≠ [] → Js.truthy ref = true).
Proof.
  intros Hrun. split; [by apply (deepObj_leaves_resolved ks obj)|].
  intros Hks. apply (deepObj_ref_truthy ks obj ref obj' Hrun).
  destruct ks as [|k ks]; [done|]. by destruct obj.
Qed.

(** X21: a second call with the same path finds every entry in place
    and changes nothing. *)
Theorem deepObj_idempotent (ks : list string) (obj ref obj' : JsVal) :
  Utils.deepObj ks obj = Ok (ref, obj') →
  Utils.deepObj ks obj' = Ok (ref, obj').
Proof.
  intros Hrun.
  destruct (deepObj_leaves_resolved ks obj ref obj' Hrun) as (Hres & Hget).
  rewrite deepObj_resolved by done. by rewrite Hget.
Qed.

(** X22: values off the path, and truthy values at its end or below
    it, stay as they were. *)
Theorem deepObj_keeps (ks q : list string) (obj ref obj' : JsVal) :
  Utils.deepObj ks obj = Ok (ref, obj') →
  (q `prefix_of` ks → q = ks) →
  Js.truthy (Js.getPath q obj) = true →
  Js.getPath q obj' = Js.getPath q obj.
Proof.
  revert q obj ref obj'. induction ks as [|k ks IH]; intros q obj ref obj'.
  - simpl. by intros [= _ <-].
  - simpl. destruct obj as [| | | | |props]; try done.
    set (old := Js.getProp (VObj props) k).
    set (child := if Js.truthy old then old else VObj []).
    destruct (Utils.deepObj ks child) as [[r c]|e] eqn:Hrec; [|done].
    intros [= _ <-] Hq Htruthy.
    destruct q as [|k' q].
    { by specialize (Hq (prefix_nil _)). }
    simpl in *. destruct (decide (k = k')) as [<-|Hne].
    + fold old in Htruthy. apply truthy_below in Htruthy as Hold.
      unfold child in Hrec. rewrite Hold in Hrec.
      unfold Js.getProp at 1. simpl. rewrite getOwn_setProp_eq. simpl.
      apply (IH q old r c Hrec); [|done].
      intros Hpre. assert (k :: q = k :: ks) as [= ->]; [|done].
      apply Hq. by apply prefix_cons.
    + unfold Js.getProp. simpl. by rewrite getOwn_setProp_ne.
Qed.


(** X20, on a template tree whose layout entry is [0]. *)
Lemma deepObj_reaches_witness :
  Utils.deepObj ["page"; "default"; "contents"] templates_two
  = Ok (VObj [],
        VObj [("page", VObj [("default", VObj [("contents", VObj [])])]);
              ("title", VStr "Drizzle")])
  ∧ Js.getPath ["page"; "default"; "contents"]
      (VObj [("page", VObj [("default", VObj [("contents", VObj [])])]);
             ("title", VStr "Drizzle")]) = VObj [].
Proof.
  assert (Utils.deepObj ["page"; "default"; "contents"] templates_two
          = Ok (VObj [],
                VObj [("page", VObj [("default", VObj [("contents", VObj [])])]);
                      ("title", VStr "Drizzle")])) as E
    by (vm_compute; reflexivity).
  split; [exact E|]. apply (deepObj_reaches _ _ _ _ E).
Defined.

(** X21, on the tree the first call left. *)
Lemma deepObj_idempotent_witness :
  Utils.deepObj ["page"; "default"; "contents"]
    (VObj [("page", VObj [("default", VObj [("contents", VObj [])])]);
           ("title", VStr "Drizzle")])
  = Ok (VObj [],
        VObj [("page", VObj [("default", VObj [("contents", VObj [])])]);
              ("title", VStr "Drizzle")]).
Proof.
  apply (deepObj_idempotent ["page"; "default"; "contents"] templates_two).
  vm_compute. reflexivity.
Defined.

(** X22, at the title next to the path. *)
Lemma deepObj_keeps_witness :
  Js.getPath ["title"]
    (VObj [("page", VObj [("default", VObj [("contents", VObj [])])]);
           ("title", VStr "Drizzle")])
  = VStr "Drizzle".
Proof.
  etrans;
    [apply (deepObj_keeps ["page"; "default"; "contents"] ["title"]
              templates_two (VObj []));
     [vm_compute; reflexivity
     |intros [l H]; discriminate H
     |vm_compute; reflexivity]|].
  vm_compute. reflexivity.
Defined.

Section RenderFacts.

Variable applyTemplate : JsVal -> JsVal -> Render.Options -> Res string.

Variable resourceContext : JsVal -> Render.DrizzleData -> JsVal.

Lemma keeps_trans d d1 o :
  keeps d (Render.Done d1) → keeps d1 o → keeps d o.
Proof.
  intros (Ho & He & Ht). destruct o as [d2|e d2|]; simpl; [| |done].
  all: intros (Ho' & He' & Ht'); unfold layoutKeys in *;
    repeat split; [congruence|congruence|];
    intros Hr; rewrite Ht', Ht; [done|done|]; by rewrite Ho, Ht.
Qed.

Lemma forin_keeps body keys d :
  (∀ k d1, keeps d1 (body k d1)) → keeps d (Render.forin body keys d).
Proof.
  intros Hbody. revert d. induction keys as [|k ks IH]; intros d; simpl.
  - by repeat split.
  - pose proof (Hbody k d) as Hk. destruct (body k d) as [d1|e d1|]; [|done..].
    by eapply keeps_trans.
Qed.

Lemma renderCollection_keeps path d ck :
  "collection" ∉ path →
  keeps d (Render.renderCollection applyTemplate resourceContext path d ck).
Proof.
  intros Hpath. unfold Render.renderCollection.
  destruct (Utils.deepObj _ (Render.templates d)) as [[layoutObj tpl']|e] eqn:Hdeep;
    [|by repeat split].
  assert (resolves (layoutKeys d) (Render.templates d) = true →
          tpl' = Render.templates d) as Htpl.
  { intros Hr. apply deepObj_resolved in Hr. unfold layoutKeys in Hr.
    rewrite Hr in Hdeep. by injection Hdeep as _ ->. }
  destruct (applyTemplate _ _ _) as [s|e]; [|by repeat split].
  destruct (Render.is_object _); [|by repeat split].
  simpl. split; [done|]. split; [by apply erase_updPath|done].
Qed.

Lemma not_in_snoc (path : list string) k c :
  c ∉ path → k ≠ c → c ∉ path ++ [k].
Proof.
  intros Hp Hk [?|Hin]%elem_of_app; [done|].
  apply elem_of_cons in Hin as [?|Hin]; [done|]. by apply elem_of_nil in Hin.
Qed.

Lemma walk_keeps fuel path d ck :
  "collection" ∉ path →
  keeps d (Render.walkCollections applyTemplate resourceContext fuel path d ck).
Proof.
  revert path d ck. induction fuel as [|fuel IH]; intros path d ck Hpath;
    [done|].
  simpl. apply forin_keeps. intros k d1.
  destruct (String.eqb k "collection") eqn:E.
  - by apply renderCollection_keeps.
  - apply IH, not_in_snoc; [done|]. by apply String.eqb_neq.
Qed.











End RenderFacts.

(** *** The pass on a tree with and without its layout *)




(** ** Termination of the walk *)

Lemma JsVal_nested_ind (P : JsVal → Prop) :
  P VUndef → P VNull → (∀ b, P (VBool b)) → (∀ z, P (VNum z)) →
  (∀ s, P (VStr s)) →
  (∀ props, Forall (fun kv => P kv.2) props → P (VObj props)) →
  ∀ v, P v.
Proof.
  intros Hu Hn Hb Hz Hs Ho.
  fix IH 1.
  intros [| |b|z|s|props];
    [exact Hu|exact Hn|apply Hb|apply Hz|apply Hs|].
  apply Ho. induction props as [|[k x] rest IHrest].
  - apply Forall_nil_2.
  - apply Forall_cons_2; [apply IH|exact IHrest].
Qed.

Lemma walkable_mono n m v : n ≤ m → walkable n v = true → walkable m v = true.
Proof.
  revert m v. induction n as [|n IH]; intros m v Hle; [done|].
  destruct m as [|m]; [lia|]. simpl.
  destruct v as [| | | | |props]; try done.
  rewrite !forallb_forall. intros H kv Hin. specialize (H kv Hin).
  destruct (String.eqb kv.1 "collection"); [done|]. simpl in *.
  apply IH; [lia|done].
Qed.

Lemma text_free_walkable v : text_free v = true → walkable (depth v) v = true.
Proof.
  induction v as [| | | | |props IH] using JsVal_nested_ind; try done.
  simpl. rewrite !forallb_forall. intros H [k x] Hin.
  specialize (H _ Hin). simpl in *.
  destruct (String.eqb k "collection") eqn:E; [done|]. simpl in *.
  rewrite Forall_forall in IH.
  apply (walkable_mono (depth x)).
  - set (f := fun '(k, x) => if String.eqb k "collection" then 0 else depth x).
    pose proof (proj1 (list_max_le (map f props) (list_max (map f props)))
                   (Nat.le_refl _)) as Hmax.
    rewrite List.Forall_forall in Hmax.
    replace (depth x) with (f (k, x)) by (simpl; by rewrite E).
    apply Hmax, (in_map f props (k, x) Hin).
  - apply (IH (k, x)); [|done]. by apply list_elem_of_In.
Qed.

Lemma walkable_erase n v : walkable n (erase v) = walkable n v.
Proof.
  revert v. induction n as [|n IH]; intros v; [done|].
  destruct v as [| | | | |props]; try done.
  rewrite erase_obj. simpl. induction props as [|[k x] rest IHrest]; [done|].
  simpl. rewrite IHrest. f_equal. unfold erase_entry.
  destruct (String.eqb k "collection"); [done|]. simpl. apply IH.
Qed.

Lemma walkable_child n props k x :
  walkable (S n) (VObj props) = true → Js.getOwn k props = Some x →
  String.eqb k "collection" = false → walkable n x = true.
Proof.
  simpl. induction props as [|[k' y] rest IH]; simpl; [done|].
  intros [Hh Ht]%andb_true_iff. destruct (String.eqb k' k) eqn:E.
  - apply String.eqb_eq in E as ->. intros [= ->] Hk. by rewrite Hk in Hh.
  - by apply IH.
Qed.

Section WalkTermination.

Variable applyTemplate : JsVal -> JsVal -> Render.Options -> Res string.

Variable resourceContext : JsVal -> Render.DrizzleData -> JsVal.

Lemma renderCollection_returns path d ck :
  Render.renderCollection applyTemplate resourceContext path d ck
  ≠ Render.OutOfFuel.
Proof.
  unfold Render.renderCollection.
  destruct (Utils.deepObj _ _) as [[layoutObj tpl']|e]; [|done].
  destruct (applyTemplate _ _ _) as [s|e]; [|done].
  by destruct (Render.is_object _).
Qed.

Lemma forin_returns (Pre : Render.DrizzleData → Prop) body keys d :
  Pre d →
  (∀ k d1 d2, Pre d1 → body k d1 = Render.Done d2 → Pre d2) →
  (∀ k d1, k ∈ keys → Pre d1 → body k d1 ≠ Render.OutOfFuel) →
  Render.forin body keys d ≠ Render.OutOfFuel.
Proof.
  intros Hpre HPre Hbody. revert d Hpre.
  induction keys as [|k ks IH]; intros d Hpre; [done|]. simpl.
  destruct (body k d) as [d1|e d1|] eqn:Hk; [|done|].
  - apply IH; [|by eapply HPre].
    intros k' d' Hin. apply Hbody. by apply elem_of_cons; right.
  - exfalso. eapply Hbody; [|exact Hpre|exact Hk]. by apply elem_of_cons; left.
Qed.

Lemma walk_returns n fuel path d ck :
  "collection" ∉ path →
  walkable n (Js.getPath path (Render.patterns d)) = true → n ≤ fuel →
  Render.walkCollections applyTemplate resourceContext fuel path d ck
  ≠ Render.OutOfFuel.
Proof.
  revert fuel path d ck. induction n as [|n IH];
    intros fuel path d ck Hpath Hw Hle; [done|].
  destruct fuel as [|fuel]; [lia|]. simpl.
  apply (forin_returns
           (fun d1 => erase (Render.patterns d1) = erase (Render.patterns d)));
    [done| |].
  - intros k d1 d2 Hpre Hk. rewrite <- Hpre.
    destruct (String.eqb k "collection") eqn:E.
    + pose proof (renderCollection_keeps applyTemplate resourceContext
                    path d1 ck Hpath) as Hkeep.
      rewrite Hk in Hkeep. by destruct Hkeep as (_ & ? & _).
    + pose proof (walk_keeps applyTemplate resourceContext
                    fuel (path ++ [k]) d1 k) as Hkeep.
      rewrite Hk in Hkeep. apply Hkeep, not_in_snoc; [done|].
      by apply String.eqb_neq.
  - intros k d1 Hin Hpre.
    destruct (String.eqb k "collection") eqn:E;
      [apply renderCollection_returns|].
    assert ("collection" ∉ path ++ [k]) as Hpk.
    { apply not_in_snoc; [done|]. by apply String.eqb_neq. }
    apply IH; [done| |lia].
    rewrite <- walkable_erase, <- getPath_erase, Hpre, getPath_erase,
      walkable_erase by done.
    rewrite getPath_app. simpl.
    destruct (Js.getPath path (Render.patterns d)) as [| | | |s|props] eqn:Hnode;
      try (by apply elem_of_nil in Hin).
    + simpl in Hw. destruct s; [by apply elem_of_nil in Hin|done].
    + unfold Js.getProp. simpl.
      destruct (Js.getOwn k props) as [x|] eqn:Hx; simpl.
      * by eapply walkable_child.
      * unfold Js.forin_keys in Hin. simpl in Hin.
        apply getOwn_key_Some in Hin as [x Hx'].
        rewrite Hx in Hx'. discriminate Hx'.
Qed.

(** A walk that reaches a non-empty string never returns: the string's
    first character is a string again. *)
Lemma walk_diverges_at_text fuel path d ck c s :
  Js.getPath path (Render.patterns d) = VStr (String c s) →
  Render.walkCollections applyTemplate resourceContext fuel path d ck
  = Render.OutOfFuel.
Proof.
  revert path ck c s. induction fuel as [|fuel IH]; intros path ck c s Hnode;
    [done|].
  simpl. rewrite Hnode.
  change (Js.forin_keys (VStr (String c s)))
    with ("0" :: (Js.str_props 1 s).*1).
  cbn [Render.forin]. change (String.eqb "0" "collection") with false.
  cbv iota. rewrite (IH _ _ c EmptyString); [done|].
  by rewrite getPath_app, Hnode.
Qed.

(** Children that are not objects are left as they were. *)
Lemma erase_non_object x y :
  erase y = erase x → Render.is_object x = false → y = x.
Proof. intros He Hx. destruct x; try done; by destruct y. Qed.

(** C5, amended: the walk recurses into every child that is not under
    the key [collection], object or not; it returns on every finite
    tree that has no non-empty string outside its collections, within
    as many stack frames as the tree is deep, and what it returns has
    every value that is not an object where and as it was. *)
Theorem walk_terminates (d : Render.DrizzleData) (fuel : nat) :
  text_free (Render.patterns d) = true →
  depth (Render.patterns d) ≤ fuel →
  Render.renderCollections applyTemplate resourceContext fuel d
  ≠ Render.OutOfFuel
  ∧ ∀ d', Render.renderCollections applyTemplate resourceContext fuel d
          = Render.Done d' →
      ∀ path, "collection" ∉ path →
        Render.is_object (Js.getPath path (Render.patterns d)) = false →
        Js.getPath path (Render.patterns d')
        = Js.getPath path (Render.patterns d).
Proof.
  intros Hfree Hfuel. split.
  - apply (walk_returns (depth (Render.patterns d)));
      [by intros ?%elem_of_nil| |done].
    by apply text_free_walkable.
  - intros d' Hrun path Hpath Hobj.
    pose proof (walk_keeps applyTemplate resourceContext fuel [] d "patterns")
      as Hkeep.
    unfold Render.renderCollections in Hrun. rewrite Hrun in Hkeep.
    destruct Hkeep as (_ & He & _); [by intros ?%elem_of_nil|].
    apply erase_non_object; [|done].
    by rewrite <- !getPath_erase, He.
Qed.

End WalkTermination.

(** C5, counterexample: on the finite tree [{note: "a"}] the walk
    recurses into the string and returns for no stack depth. *)
Lemma walk_text_counterexample :
  ¬ ∃ fuel,
      Render.renderCollections lenient_engine plain_context fuel tree_with_text
      ≠ Render.OutOfFuel.
Proof.
  intros [fuel H]. apply H. unfold Render.renderCollections.
  destruct fuel as [|fuel]; [done|]. simpl.
  by rewrite (walk_diverges_at_text _ _ fuel ["note"] tree_with_text "note"
                "a"%char EmptyString).
Qed.

(** The example tree is two levels deep. *)
Lemma walk_terminates_witness :
  text_free (Render.patterns with_layout) = true
  ∧ depth (Render.patterns with_layout) ≤ 2
  ∧ Render.renderCollections lenient_engine plain_context 2 with_layout
    ≠ Render.OutOfFuel.
Proof.
  split; [vm_compute; reflexivity|].
  split; [vm_compute; apply le_n|].
  apply (walk_terminates lenient_engine plain_context with_layout 2);
    [vm_compute; reflexivity|vm_compute; apply le_n].
Defined.

(** ** A pass without exceptions *)




Section RenderSuccess.

Variable applyTemplate : JsVal -> JsVal -> Render.Options -> Res string.
Variable resourceContext : JsVal -> Render.DrizzleData -> JsVal.

Hypothesis engine_total : ∀ body ctx o, ∃ s, applyTemplate body ctx o = Ok s.





End RenderSuccess.


(** ** The natural order of keys *)

Lemma chunk_cmp_antisym a b :
  Natural.chunk_cmp a b = CompOpp (Natural.chunk_cmp b a).
Proof.
  destruct a as [x|x], b as [y|y]; simpl; try done.
  - apply N.compare_antisym.
  - apply Nat.compare_antisym.
Qed.

Lemma list_cmp_antisym l1 l2 :
  Natural.list_cmp l1 l2 = CompOpp (Natural.list_cmp l2 l1).
Proof.
  revert l2. induction l1 as [|a l1 IH]; intros [|b l2]; simpl; try done.
  rewrite (chunk_cmp_antisym a b).
  destruct (Natural.chunk_cmp b a); simpl; [apply IH|done..].
Qed.

Lemma natural_cmp_antisym a b : Natural.cmp a b = CompOpp (Natural.cmp b a).
Proof.
  unfold Natural.cmp. rewrite (list_cmp_antisym (Natural.chunks None a)).
  destruct (Natural.list_cmp _ _); simpl; [|done..].
  apply String.compare_antisym.
Qed.

#[global] Instance natural_le_total : Total Natural.le.
Proof.
  intros a b. unfold Natural.le, Natural.leb.
  rewrite (natural_cmp_antisym b a).
  destruct (Natural.cmp a b); simpl; auto.
Qed.

(** Keys that compare equal are the same key. *)
Lemma natural_cmp_eq a b : Natural.cmp a b = Eq → a = b.
Proof.
  unfold Natural.cmp. destruct (Natural.list_cmp _ _); [|done..].
  apply String.compare_eq_iff.
Qed.

Example natural_order_ex :
  merge_sort Natural.le ["a10"; "b"; "a9"; "10"; "A"; "9"]
  = ["9"; "10"; "A"; "a9"; "a10"; "b"].
Proof. vm_compute. reflexivity. Qed.

(** ** The pattern tree builder *)

Section BuilderFacts.

Variable cfg : Patterns.Config.

Variable colldata : list string -> Props.






(** Placements in different directories, or of different keys in one
    directory, can be swapped. *)
Lemma atDir_comm segs1 segs2 f1 f2 t :
  (segs1 ≠ segs2 ∨ ∀ c, f1 (Some (f2 c)) = f2 (Some (f1 c))) →
  Patterns.atDir segs1 f1 (Patterns.atDir segs2 f2 t)
  = Patterns.atDir segs2 f2 (Patterns.atDir segs1 f1 t).
Proof.
  revert segs2 t. induction segs1 as [|s1 rest1 IH];
    intros [|s2 rest2] [c ch] Hcomm; simpl; try done.
  - destruct Hcomm as [?|Hcomm]; [done|]. by rewrite Hcomm.
  - destruct (decide (s1 = s2)) as [->|Hs].
    + rewrite !lookup_insert_eq, !insert_insert_eq. simpl.
      rewrite IH; [done|]. destruct Hcomm as [?|?]; [left; congruence|by right].
    + rewrite !lookup_insert_ne by done. by rewrite insert_insert_ne.
Qed.

Lemma putItem_comm segs k1 k2 p1 p2 c :
  k1 ≠ k2 →
  Patterns.putItem cfg colldata segs k1 p1
    (Some (Patterns.putItem cfg colldata segs k2 p2 c))
  = Patterns.putItem cfg colldata segs k2 p2
      (Some (Patterns.putItem cfg colldata segs k1 p1 c)).
Proof.
  intros Hk. unfold Patterns.putItem. simpl.
  by rewrite (insert_insert_ne _ k1 k2).
Qed.

Lemma insertRecord_comm t r1 r2 :
  dirKey cfg r1 ≠ dirKey cfg r2 →
  Patterns.insertRecord cfg colldata (Patterns.insertRecord cfg colldata t r1) r2
  = Patterns.insertRecord cfg colldata (Patterns.insertRecord cfg colldata t r2) r1.
Proof.
  intros Hne. unfold Patterns.insertRecord. apply atDir_comm.
  destruct (decide (Patterns.segsOf cfg r2 = Patterns.segsOf cfg r1))
    as [Hs|Hs]; [right|by left].
  intros c. rewrite Hs. apply putItem_comm. intros Hk. apply Hne.
  unfold dirKey. by rewrite Hs, Hk.
Qed.

Lemma insertAll_perm records records' t :
  records ≡ₚ records' → NoDup (dirKey cfg <$> records) →
  fold_left (Patterns.insertRecord cfg colldata) records t
  = fold_left (Patterns.insertRecord cfg colldata) records' t.
Proof.
  intros Hperm. revert t.
  induction Hperm as [|r rs rs' _ IH|r1 r2 rs|rs rs' rs'' H1 IH1 H2 IH2];
    intros t Hnd; simpl.
  - done.
  - apply IH. by inversion Hnd.
  - f_equal. apply insertRecord_comm.
    rewrite !fmap_cons in Hnd. inversion Hnd as [|? ? Hnotin _]; subst.
    intros Heq. apply Hnotin. rewrite Heq. by apply elem_of_cons; left.
  - rewrite IH1 by done. apply IH2. by rewrite <- H1.
Qed.

Lemma placeAll_inr records t t' :
  Patterns.placeAll cfg colldata t records = inr t' ↔
  Forall (fun r => Patterns.check cfg colldata r = None) records
  ∧ t' = fold_left (Patterns.insertRecord cfg colldata) records t.
Proof.
  revert t. induction records as [|r rs IH]; intros t; simpl.
  - split; [by intros [= ->]|by intros [_ ->]].
  - unfold Patterns.place.
    destruct (Patterns.check cfg colldata r) as [e|] eqn:Hc.
    + split; [done|]. intros [H _]. inversion H; congruence.
    + rewrite IH. split; intros [H ->]; (split; [|done]).
      * by constructor.
      * by inversion H.
Qed.

Lemma placeAll_inl pre r post e t :
  Forall (fun r => Patterns.check cfg colldata r = None) pre →
  Patterns.check cfg colldata r = Some e →
  Patterns.placeAll cfg colldata t (pre ++ r :: post) = inl e.
Proof.
  intros Hpre Hr. revert t. induction Hpre as [|r' pre' Hr' _ IH]; intros t;
    simpl; unfold Patterns.place.
  - by rewrite Hr.
  - rewrite Hr'. apply IH.
Qed.

(** *** Reserved properties *)

Lemma check_None r : Patterns.check cfg colldata r = None ↔ ¬ violates cfg colldata r.
Proof.
  unfold Patterns.check, violates.
  destruct (Patterns.defines "id" _); [split; [done|tauto]|].
  destruct (Patterns.defines "items" _); [split; [done|tauto]|].
  destruct (Patterns.defines "patterns" _); [split; [done|tauto]|].
  split; [|done]. by intros _ [?|[?|?]].
Qed.

Lemma reservedError_message p src :
  let e := Patterns.reservedError p src in
  Str.contains (Patterns.message e) "Drizzle reserved property" = true
  ∧ Str.contains (Patterns.message e) (Patterns.prop e) = true
  ∧ Str.contains (Patterns.message e) (Patterns.source e) = true.
Proof.
  cbv zeta. unfold Patterns.reservedError.
  cbn [Patterns.message Patterns.prop Patterns.source].
  split; [reflexivity|]. split.
  - apply (contains_app_mid "Drizzle reserved property ").
  - rewrite append_assoc3. apply contains_app_end.
Qed.

Lemma check_Some r :
  violates cfg colldata r →
  ∃ e, Patterns.check cfg colldata r = Some e
       ∧ names_offence cfg colldata r e
       ∧ Patterns.is_reserved (Patterns.prop e) = true
       ∧ Str.contains (Patterns.message e) "Drizzle reserved property" = true
       ∧ Str.contains (Patterns.message e) (Patterns.prop e) = true
       ∧ Str.contains (Patterns.message e) (Patterns.source e) = true.
Proof.
  intros Hv. unfold Patterns.check, names_offence.
  destruct (Patterns.defines "id" _) eqn:H1.
  { eexists. split; [done|]. split; [by left|].
    split; [done|]. apply reservedError_message. }
  destruct (Patterns.defines "items" _) eqn:H2.
  { eexists. split; [done|]. split; [right; simpl; auto|].
    split; [done|]. apply reservedError_message. }
  destruct (Patterns.defines "patterns" _) eqn:H3.
  { eexists. split; [done|]. split; [right; simpl; auto|].
    split; [done|]. apply reservedError_message. }
  exfalso. destruct Hv as [?|[?|?]]; congruence.
Qed.

Lemma first_violation records :
  Exists (violates cfg colldata) records →
  ∃ pre r post, records = pre ++ r :: post
                ∧ Forall (fun r => ¬ violates cfg colldata r) pre ∧ violates cfg colldata r.
Proof.
  induction records as [|r rs IH]; [by intros ?%Exists_nil|].
  intros Hex. destruct (decide (violates cfg colldata r)) as [Hv|Hv].
  - exists [], r, rs. by repeat split.
  - apply Exists_cons in Hex as [?|Hex]; [done|].
    destruct (IH Hex) as (pre & r' & post & -> & Hpre & Hr').
    exists (r :: pre), r', post. repeat split; [|done]. by constructor.
Qed.

(** C1: if a record's data defines [id], or the data of its collection
    defines [items] or [patterns], the build yields no tree but the
    error of the first such record, whatever records follow it; the
    error carries the reserved property, and its message names the
    property and the file or collection. *)
Theorem build_fails_on_reserved (records : list Patterns.FileRecord) :
  Exists (violates cfg colldata) records →
  ∃ e pre r post,
    records = pre ++ r :: post
    ∧ Forall (fun r => ¬ violates cfg colldata r) pre
    ∧ Patterns.build cfg colldata records = inl e
    ∧ (∀ post', Patterns.build cfg colldata (pre ++ r :: post') = inl e)
    ∧ names_offence cfg colldata r e
    ∧ Patterns.is_reserved (Patterns.prop e) = true
    ∧ Str.contains (Patterns.message e) "Drizzle reserved property" = true
    ∧ Str.contains (Patterns.message e) (Patterns.prop e) = true
    ∧ Str.contains (Patterns.message e) (Patterns.source e) = true.
Proof.
  intros (pre & r & post & -> & Hpre & Hr)%first_violation.
  destruct (check_Some r Hr) as (e & Hc & Hrest).
  exists e, pre, r, post.
  assert (∀ post', Patterns.build cfg colldata (pre ++ r :: post') = inl e)
    as Hbuild.
  { intros post'. unfold Patterns.build.
    rewrite (placeAll_inl pre r post' e); [done| |done].
    eapply Forall_impl; [exact Hpre|]. intros r'. apply check_None. }
  split; [done|]. split; [done|]. split; [apply Hbuild|].
  split; [done|]. exact Hrest.
Qed.

(** Without such a record the build yields a tree. *)
Lemma build_succeeds (records : list Patterns.FileRecord) :
  Forall (fun r => ¬ violates cfg colldata r) records →
  Patterns.build cfg colldata records
  = inr (Patterns.finalize
           (fold_left (Patterns.insertRecord cfg colldata) records
              Patterns.empty_tree)).
Proof.
  intros Hok. unfold Patterns.build.
  destruct (Patterns.placeAll _ _ _ _) as [e|t] eqn:Hp.
  - exfalso.
    assert (Patterns.placeAll cfg colldata Patterns.empty_tree records
            = inr (fold_left (Patterns.insertRecord cfg colldata) records
                     Patterns.empty_tree)) as Hp'.
    { apply placeAll_inr. split; [|done].
      eapply Forall_impl; [exact Hok|]. intros r. apply check_None. }
    congruence.
  - apply placeAll_inr in Hp as [_ ->]. done.
Qed.

(** *** What a collection holds *)





Lemma build_inr records t :
  Patterns.build cfg colldata records = inr t ↔
  Forall (fun r => Patterns.check cfg colldata r = None) records
  ∧ t = Patterns.finalize
          (fold_left (Patterns.insertRecord cfg colldata) records
             Patterns.empty_tree).
Proof.
  unfold Patterns.build.
  destruct (Patterns.placeAll _ _ _ _) as [e|t0] eqn:Hp.
  - split; [done|]. intros [Hok _].
    assert (Patterns.placeAll cfg colldata Patterns.empty_tree records
            = inr (fold_left (Patterns.insertRecord cfg colldata) records
                     Patterns.empty_tree)) as Hp'
      by (by apply placeAll_inr).
    congruence.
  - apply placeAll_inr in Hp as [Hok ->].
    split; [by intros [= <-]|by intros [_ ->]].
Qed.


(** *** Read order *)

(** C3, amended: when no two records share directory and key, any two
    read orders of the records either both fail or yield the same
    tree. *)
Theorem build_order_independent (records records' : list Patterns.FileRecord) :
  NoDup (dirKey cfg <$> records) → records ≡ₚ records' →
  match Patterns.build cfg colldata records,
        Patterns.build cfg colldata records' with
  | inr t, inr t' => t = t'
  | inl _, inl _ => True
  | _, _ => False
  end.
Proof.
  intros Hnd Hperm.
  destruct (Patterns.build cfg colldata records) as [e|t] eqn:H1;
    destruct (Patterns.build cfg colldata records') as [e'|t'] eqn:H2;
    [done| | |].
  - apply build_inr in H2 as [Hok _]. rewrite <- Hperm in Hok.
    assert (Patterns.build cfg colldata records
            = inr (Patterns.finalize
                     (fold_left (Patterns.insertRecord cfg colldata) records
                        Patterns.empty_tree))) as H1'
      by (by apply build_inr).
    congruence.
  - apply build_inr in H1 as [Hok _]. rewrite Hperm in Hok.
    assert (Patterns.build cfg colldata records'
            = inr (Patterns.finalize
                     (fold_left (Patterns.insertRecord cfg colldata) records'
                        Patterns.empty_tree))) as H2'
      by (by apply build_inr).
    congruence.
  - apply build_inr in H1 as [_ ->]. apply build_inr in H2 as [_ ->].
    by rewrite (insertAll_perm records records').
Qed.

End BuilderFacts.

(** C3, counterexample: [a.html] and [a.md] have the key [a]; the
    tree holds whichever was read last. *)
Lemma build_order_counterexample :
  clash_records ≡ₚ rev clash_records
  ∧ itemPath ["btn"] "a"
      (Patterns.build example_cfg example_data clash_records)
    = Some "/src/btn/a.md"
  ∧ itemPath ["btn"] "a"
      (Patterns.build example_cfg example_data (rev clash_records))
    = Some "/src/btn/a.html"
  ∧ Patterns.build example_cfg example_data clash_records
    ≠ Patterns.build example_cfg example_data (rev clash_records).
Proof.
  assert (itemPath ["btn"] "a"
            (Patterns.build example_cfg example_data clash_records)
          = Some "/src/btn/a.md") as H1 by (vm_compute; reflexivity).
  assert (itemPath ["btn"] "a"
            (Patterns.build example_cfg example_data (rev clash_records))
          = Some "/src/btn/a.html") as H2 by (vm_compute; reflexivity).
  split; [apply Permutation_rev|]. split; [done|]. split; [done|].
  intros Heq. rewrite Heq, H2 in H1. discriminate H1.
Qed.

(** *** The theorems at the example inputs *)

(** The second of three records sets [id]. *)
Lemma build_fails_on_reserved_witness :
  Exists (violates example_cfg example_data) bad_records
  ∧ ∃ e, Patterns.build example_cfg example_data bad_records = inl e
         ∧ Str.contains (Patterns.message e) (Patterns.prop e) = true.
Proof.
  assert (Exists (violates example_cfg example_data) bad_records) as H.
  { apply Exists_cons_tl, Exists_cons_hd. left. reflexivity. }
  split; [exact H|].
  destruct (build_fails_on_reserved example_cfg example_data bad_records H)
    as (e & pre & r & post & _ & _ & Hb & _ & _ & _ & _ & Hm & _).
  by exists e.
Defined.

Example build_fails_on_local_id :
  Patterns.build example_cfg example_data bad_records
  = inl (Patterns.reservedError "id" "/src/btn/localId.html").
Proof. vm_compute. reflexivity. Qed.

Example build_fails_on_collection_items :
  Patterns.build example_cfg bad_collection_data
    [example_record "/src/badCollection/a.html" []]
  = inl (Patterns.reservedError "items" "collection patterns.badCollection").
Proof. vm_compute. reflexivity. Qed.


(** The example records read backwards. *)
Lemma build_order_independent_witness :
  NoDup (dirKey example_cfg <$> example_records)
  ∧ example_records ≡ₚ rev example_records
  ∧ Patterns.build example_cfg example_data (rev example_records)
    = inr example_tree.
Proof.
  assert (NoDup (dirKey example_cfg <$> example_records)) as Hnd.
  { apply (bool_decide_unpack _). vm_compute. reflexivity. }
  assert (example_records ≡ₚ rev example_records) as Hperm
    by apply Permutation_rev.
  split; [exact Hnd|]. split; [exact Hperm|].
  pose proof (build_order_independent example_cfg example_data
                example_records (rev example_records) Hnd Hperm) as H.
  replace (Patterns.build example_cfg example_data example_records)
    with (@inr Patterns.BuildError _ example_tree) in H
    by (vm_compute; reflexivity).
  destruct (Patterns.build example_cfg example_data (rev example_records))
    as [e|t']; [destruct H|by rewrite H].
Defined.

